(** * btc-congestion-manager: the fee estimator ([src/fee-estimator.ts])

    A shallow embedding of the pure parts of the estimation pipeline and
    the properties of its specification.

    Conventions of the embedding.
    - A JavaScript [number] is an exact rational extended with [NaN] and the
      two infinities: the arithmetic of the source is kept, its rounding is
      not.  The two zeros are identified, so a quotient by zero takes the
      sign of its dividend.
    - A property that may be absent from an object is an [option]; [None]
      is [undefined].  The raw mempool is decoded from JSON, which has no
      literal for [NaN] or an infinity, so a raw field is an [option Q].
    - An object used as a mapping is the list of its entries in the order
      [Object.keys] enumerates them.
    - An observable is the list of the values it emits, oldest first; the
      observables of the source do not complete. *)

From Stdlib Require Import String DecimalString.
From Stdlib Require Import QArith Qround Lqa Lia ZArith Arith Bool List.
From Stdlib Require Import Permutation Sorted.
Import ListNotations.

Open Scope Q_scope.

(** ** Numbers *)

Module Num.

Inductive number : Type :=
| NaN
| PInf
| NInf
| Fin (q : Q).

Definition Qlt_bool (a b : Q) : bool := negb (Qle_bool b a).

Definition ofNat (n : nat) : number := Fin (inject_Z (Z.of_nat n)).

(** [ToNumber] on a value that is a number or [undefined]. *)
Definition toNumber (v : option Q) : number :=
  match v with
  | Some q => Fin q
  | None => NaN
  end.

Definition neg (x : number) : number :=
  match x with
  | NaN => NaN
  | PInf => NInf
  | NInf => PInf
  | Fin q => Fin (- q)
  end.

Definition add (x y : number) : number :=
  match x, y with
  | NaN, _ | _, NaN => NaN
  | PInf, NInf | NInf, PInf => NaN
  | PInf, _ | _, PInf => PInf
  | NInf, _ | _, NInf => NInf
  | Fin a, Fin b => Fin (a + b)
  end.

Definition sub (x y : number) : number := add x (neg y).

(** An infinity of the sign of [q]; [NaN] when [q] is zero. *)
Definition infOfSign (q : Q) : number :=
  if Qeq_bool q 0 then NaN
  else if Qlt_bool 0 q then PInf else NInf.

Definition mul (x y : number) : number :=
  match x, y with
  | NaN, _ | _, NaN => NaN
  | PInf, PInf | NInf, NInf => PInf
  | PInf, NInf | NInf, PInf => NInf
  | PInf, Fin q | Fin q, PInf => infOfSign q
  | NInf, Fin q | Fin q, NInf => infOfSign (- q)
  | Fin a, Fin b => Fin (a * b)
  end.

Definition div (x y : number) : number :=
  match x, y with
  | NaN, _ | _, NaN => NaN
  | (PInf | NInf), (PInf | NInf) => NaN
  | PInf, Fin q => if Qlt_bool q 0 then NInf else PInf
  | NInf, Fin q => if Qlt_bool q 0 then PInf else NInf
  | Fin _, (PInf | NInf) => Fin 0
  | Fin a, Fin b => if Qeq_bool b 0 then infOfSign a else Fin (a / b)
  end.

(** [x < y]; false as soon as one side is [NaN]. *)
Definition ltb (x y : number) : bool :=
  match x, y with
  | NaN, _ | _, NaN => false
  | _, NInf => false
  | NInf, _ => true
  | PInf, _ => false
  | _, PInf => true
  | Fin a, Fin b => Qlt_bool a b
  end.

(** [x <= y]. *)
Definition leb (x y : number) : bool :=
  match x, y with
  | NaN, _ | _, NaN => false
  | NInf, _ => true
  | _, PInf => true
  | _, NInf => false
  | PInf, _ => false
  | Fin a, Fin b => Qle_bool a b
  end.

(** [x > y] and [x >= y]. *)
Definition gtb (x y : number) : bool := ltb y x.
Definition geb (x y : number) : bool := leb y x.

(** [x === y] on numbers. *)
Definition eqb (x y : number) : bool :=
  match x, y with
  | PInf, PInf | NInf, NInf => true
  | Fin a, Fin b => Qeq_bool a b
  | _, _ => false
  end.

Definition isNaN (x : number) : bool :=
  match x with
  | NaN => true
  | _ => false
  end.

(** [Number.isFinite(x)]: neither [NaN] nor an infinity. *)
Definition isFinite (x : number) : bool :=
  match x with
  | Fin _ => true
  | _ => false
  end.

Definition zero : number := Fin 0.
Definition one : number := Fin 1.

End Num.

Import Num.

#[global] Arguments gtb : simpl never.
#[global] Arguments geb : simpl never.
#[global] Arguments sub : simpl never.

Declare Scope num_scope.
Delimit Scope num_scope with num.
Infix "+" := add : num_scope.
Infix "-" := sub : num_scope.
Infix "*" := mul : num_scope.
Infix "/" := div : num_scope.
Infix "<?" := ltb : num_scope.
Infix "<=?" := leb : num_scope.
Infix ">?" := gtb (at level 70) : num_scope.
Infix ">=?" := geb (at level 70) : num_scope.
Infix "===" := eqb (at level 70) : num_scope.

(** ** Arrays *)

Module Js.

Section Sort.
Context {A : Type}.
Variable compareFn : A -> A -> number.

(** [x] is placed in front of the first element that the comparator does
    not order before it. *)
Fixpoint insert (x : A) (l : list A) : list A :=
  match l with
  | [] => [x]
  | y :: l' =>
      if (compareFn x y >? zero)%num then y :: insert x l'
      else x :: y :: l'
  end.

(** [Array.prototype.sort(compareFn)], as a stable insertion sort.
    ECMAScript 2019 requires the sort to be stable.  With a consistent
    comparator, which [(a, b) => key(b) - key(a)] is when the keys are
    finite numbers, every stable sort returns this list
    ([SortFacts.stable_sort_unique]).  Where the comparator returns [NaN]
    (a key is [NaN], or two keys are the same infinity), and on the
    engines before ECMAScript 2019 for arrays of more than 10 elements,
    the order of the result depends on the algorithm of the engine, and
    this definition gives one of the possible orders: the statements on
    the order of ties assume finite keys. *)
Definition sort (l : list A) : list A := fold_right insert [] l.
End Sort.

Section Indexed.
Context {A : Type}.

Fixpoint filterFrom (i : nat) (p : A -> nat -> bool) (l : list A) : list A :=
  match l with
  | [] => []
  | x :: l' =>
      if p x i then x :: filterFrom (S i) p l' else filterFrom (S i) p l'
  end.

(** [xs.filter((x, i) => p)]. *)
Definition filteri (p : A -> nat -> bool) (l : list A) : list A :=
  filterFrom 0 p l.

Context {B : Type}.

Fixpoint reduceFrom (f : B -> A -> nat -> list A -> B) (xs : list A)
    (i : nat) (rest : list A) (acc : B) : B :=
  match rest with
  | [] => acc
  | x :: rest' => reduceFrom f xs (S i) rest' (f acc x i xs)
  end.

(** [xs.reduce((acc, x, i, xs) => f, init)]. *)
Definition reduce (f : B -> A -> nat -> list A -> B) (init : B)
    (xs : list A) : B :=
  reduceFrom f xs 0 xs init.
End Indexed.

End Js.

(** ** Observables *)

Module Rx.

Section Scan.
Context {A : Type}.
Variable accumulator : A -> A -> A.

Fixpoint scanFrom (acc : A) (l : list A) : list A :=
  match l with
  | [] => []
  | x :: l' => let acc' := accumulator acc x in acc' :: scanFrom acc' l'
  end.

(** [source.scan(accumulator)] without a seed: the first value is emitted
    as it is and becomes the accumulated value; from then on the
    accumulated value is the last value emitted. *)
Definition scan (l : list A) : list A :=
  match l with
  | [] => []
  | x :: l' => x :: scanFrom x l'
  end.
End Scan.

(** [source.filter(p)]. *)
Definition filter {A : Type} (p : A -> bool) (l : list A) : list A :=
  List.filter p l.

End Rx.

(** ** lodash *)

Module Lodash.

(** [baseSum]: the sum of the values of [iteratee], from the first one on;
    [undefined] for an empty array.  The additions are exact, where
    lodash rounds every partial sum to a double. *)
Definition baseSum {A : Type} (iteratee : A -> number) (xs : list A)
    : option number :=
  match xs with
  | [] => None
  | x :: xs' =>
      Some (fold_left (fun acc y => (acc + iteratee y)%num) xs' (iteratee x))
  end.

(** [sumBy]: the sum, 0 for an empty array. *)
Definition sumBy {A : Type} (iteratee : A -> number) (xs : list A) : number :=
  match baseSum iteratee xs with
  | Some sum => sum
  | None => zero
  end.

(** [meanBy]: the sum over the length, and [NaN] for an empty array. *)
Definition meanBy {A : Type} (iteratee : A -> number) (xs : list A) : number :=
  match baseSum iteratee xs with
  | Some sum => (sum / ofNat (length xs))%num
  | None => NaN
  end.

End Lodash.

(** ** The mempool and its packing *)

(** An entry of the raw mempool, with the properties [sortByFee] reads. *)
Module Raw.
Record entry : Type := {
  size : option Q;
  fee : option Q;
  descendentsize : option Q;
  descendentfees : option Q;
  descendantsize : option Q;
  descendantfees : option Q
}.
End Raw.

(** The object built by the first [map] of [sortByFee]. *)
Module FeeTx.
Record t : Type := {
  size : option Q;
  fee : option Q;
  descendantsize : option Q;
  descendantfees : option Q;
  txid : string;
  feeRate : number
}.
End FeeTx.

Module MempoolTx.
Record t : Type := {
  size : option Q;
  fee : option Q;
  descendantsize : option Q;
  descendantfees : option Q;
  txid : string;
  feeRate : number;
  cumSize : number;
  targetBlock : nat
}.
End MempoolTx.

Definition RawMempool : Type := list (string * Raw.entry).

Section Packing.
(** [config.constants.blockSize * (1 - config.constants.minersReservedBlockRatio)] *)
Variable blockEffectiveSize : Q.

Definition project (kv : string * Raw.entry) : FeeTx.t :=
  let '(txid, e) := kv in
  {| FeeTx.size := Raw.size e;
     FeeTx.fee := Raw.fee e;
     FeeTx.descendantsize := Raw.descendentsize e;
     FeeTx.descendantfees := Raw.descendentfees e;
     FeeTx.txid := txid;
     FeeTx.feeRate :=
       (toNumber (Raw.descendantfees e) / toNumber (Raw.descendantsize e))%num |}.

Definition byFeeRate (a b : FeeTx.t) : number :=
  (FeeTx.feeRate b - FeeTx.feeRate a)%num.

(** The second [map]; [cumSize], [targetBlock] and [n] are the variables
    its callback updates. *)
Fixpoint pack (cumSize : number) (targetBlock n : nat) (l : list FeeTx.t)
    : list MempoolTx.t :=
  match l with
  | [] => []
  | tx :: l' =>
      let cumSize := (cumSize + toNumber (FeeTx.size tx))%num in
      let crossed := (cumSize >? ofNat n * Fin blockEffectiveSize)%num in
      let targetBlock := if crossed then (targetBlock + 1)%nat else targetBlock in
      let n := if crossed then (n + 1)%nat else n in
      {| MempoolTx.size := FeeTx.size tx;
         MempoolTx.fee := FeeTx.fee tx;
         MempoolTx.descendantsize := FeeTx.descendantsize tx;
         MempoolTx.descendantfees := FeeTx.descendantfees tx;
         MempoolTx.txid := FeeTx.txid tx;
         MempoolTx.feeRate := FeeTx.feeRate tx;
         MempoolTx.cumSize := cumSize;
         MempoolTx.targetBlock := targetBlock |}
      :: pack cumSize targetBlock n l'
  end.

(** The values of [cumSize], [targetBlock] and [n] once the second [map]
    has visited [l]. *)
Fixpoint packEnd (cumSize : number) (targetBlock n : nat) (l : list FeeTx.t)
    : number * nat * nat :=
  match l with
  | [] => (cumSize, targetBlock, n)
  | tx :: l' =>
      let cumSize := (cumSize + toNumber (FeeTx.size tx))%num in
      let crossed := (cumSize >? ofNat n * Fin blockEffectiveSize)%num in
      let targetBlock := if crossed then (targetBlock + 1)%nat else targetBlock in
      let n := if crossed then (n + 1)%nat else n in
      packEnd cumSize targetBlock n l'
  end.

(** [sortByFee(txs, cumSize, targetBlock, n)] (lines 42-60);
    [Object.keys(txs).map] visits the entries of [txs] in their enumeration
    order. *)
Definition sortByFeeFrom (txs : RawMempool) (cumSize : number)
    (targetBlock n : nat) : list MempoolTx.t :=
  pack cumSize targetBlock n (Js.sort byFeeRate (map project txs)).

(** [sortByFee(txs)], with the default [cumSize = 0], [targetBlock = 1]
    and [n = 1]. *)
Definition sortByFee (txs : RawMempool) : list MempoolTx.t :=
  sortByFeeFrom txs zero 1 1.

(** The counters [targetBlock] and [n] when [sortByFee(txs)] returns. *)
Definition countersAfter (txs : RawMempool) : nat * nat :=
  let '(_, targetBlock, n) :=
    packEnd zero 1 1 (Js.sort byFeeRate (map project txs)) in
  (targetBlock, n).
End Packing.

(** ** Removed transactions and mined blocks *)

(** [differenceBy(xs, ys, 'txid')] (lines 80, 84). *)
Definition differenceByTxid (xs ys : list MempoolTx.t) : list MempoolTx.t :=
  List.filter
    (fun x => negb (existsb (fun y => String.eqb (MempoolTx.txid x) (MempoolTx.txid y)) ys))
    xs.

Fixpoint bufferCount2 {A : Type} (l : list A) : list (A * A) :=
  match l with
  | x :: (y :: _) as l' => (x, y) :: bufferCount2 l'
  | _ => []
  end.

(** [last2Mempools$], as the pairs [(txs[0], txs[1])]. *)
Definition last2Mempools (memPooler : list (list MempoolTx.t))
    : list (list MempoolTx.t * list MempoolTx.t) :=
  bufferCount2 memPooler.

Definition removedTxsShared (memPooler : list (list MempoolTx.t))
    : list (list MempoolTx.t) :=
  map (fun txs => differenceByTxid (fst txs) (snd txs)) (last2Mempools memPooler).

(** [txs => txs.length > 500], the proxy for a mined block (line 89). *)
Definition minedBlockProxy (txs : list MempoolTx.t) : bool :=
  (500 <? length txs)%nat.

Definition minedTxs (memPooler : list (list MempoolTx.t))
    : list (list MempoolTx.t) :=
  Rx.filter minedBlockProxy (removedTxsShared memPooler).

(** ** The summary of a mined block *)

(** [minQuant(xs, quantile)] (lines 92-93). *)
Definition minQuant {A : Type} (xs : list A) (quantile : number) : list A :=
  Js.filteri
    (fun _ i => (ofNat i >? ofNat (length xs) * (one - quantile))%num) xs.

Definition quantiles : list Q :=
  [4 # 10; 2 # 10; 1 # 10; 5 # 100; 1 # 100; 5 # 1000; 1 # 1000].

Definition byFeeRateMined (a b : MempoolTx.t) : number :=
  (MempoolTx.feeRate b - MempoolTx.feeRate a)%num.

(** The [fee] field of the summary of a mined event [mempool] (lines
    99-100, 107-111): the association of each quantile to its value, in the
    order of the [reduce]. *)
Definition summaryFee (mempool : list MempoolTx.t) : list (Q * number) :=
  let x := Js.sort byFeeRateMined mempool in
  map (fun quantile =>
         (quantile, Lodash.meanBy MempoolTx.feeRate (minQuant x (Fin quantile))))
      quantiles.

(** ** Velocity and acceleration *)

(** [acceleration(targetBlock)] (lines 178-180), from the values of
    [velocity(targetBlock)]. *)
Definition acceleration (velocity : list number) : list number :=
  Rx.scan (fun v0 v1 => (v1 - v0)%num) velocity.

(** ** Fee estimates, their differences and the recommendation *)

(** The value emitted by [getFee(targetBlock)]. *)
Module Fee.
Record t : Type := {
  feeRate : number;
  timestamp : Z;
  date : Z;
  targetBlock : nat
}.
End Fee.

Module FeeDiff.
Record t : Type := {
  diff : number;
  feeRate : number;
  timestamp : Z;
  date : Z;
  targetBlock : nat
}.
End FeeDiff.

Module Recommendation.
Record t : Type := {
  diff : number;
  feeRate : number;
  timestamp : Z;
  date : Z;
  targetBlock : nat;
  cumDiff : number;
  valid : bool
}.
End Recommendation.

Definition range : list Q := [1; 2; 3; 4].

(** [range[i]], [undefined] past the end. *)
Definition rangeAt (i : nat) : number := toNumber (nth_error range i).

(** [{ diff: d, ...fee }] *)
Definition withDiff (d : number) (fee : Fee.t) : FeeDiff.t :=
  {| FeeDiff.diff := d;
     FeeDiff.feeRate := Fee.feeRate fee;
     FeeDiff.timestamp := Fee.timestamp fee;
     FeeDiff.date := Fee.date fee;
     FeeDiff.targetBlock := Fee.targetBlock fee |}.

(** The object that the callback of the [reduce] of [feeDiff$] appends.
    Under [i > 0] the indices [i] and [i - 1] are both within [xs]. *)
Definition feeDiffEntry (fee : Fee.t) (i : nat) (xs : list Fee.t) : FeeDiff.t :=
  if (0 <? i)%nat
  then withDiff
         ((Fee.feeRate (nth i xs fee) - Fee.feeRate (nth (i - 1) xs fee))
          / (rangeAt i - rangeAt (i - 1)))%num
         fee
  else withDiff zero fee.

Definition feeDiffStep (acc : list FeeDiff.t) (fee : Fee.t) (i : nat)
    (xs : list Fee.t) : list FeeDiff.t :=
  acc ++ [feeDiffEntry fee i xs].

(** What [feeDiff$] emits for the combined fee estimates [x] (lines
    230-245). *)
Definition feeDiff (x : list Fee.t) : list FeeDiff.t :=
  List.filter (fun x => (FeeDiff.diff x <=? zero)%num)
              (Js.reduce feeDiffStep [] x).

(** [{ ...fee, cumDiff: c, valid: v }] *)
Definition withCumDiff (fee : FeeDiff.t) (c : number) (v : bool)
    : Recommendation.t :=
  {| Recommendation.diff := FeeDiff.diff fee;
     Recommendation.feeRate := FeeDiff.feeRate fee;
     Recommendation.timestamp := FeeDiff.timestamp fee;
     Recommendation.date := FeeDiff.date fee;
     Recommendation.targetBlock := FeeDiff.targetBlock fee;
     Recommendation.cumDiff := c;
     Recommendation.valid := v |}.

(** The square of the cost [Math.sqrt(e.diff * e.cumDiff) / e.targetBlock].
    [sort] uses the result of its comparator only through its sign, and in
    exact arithmetic [sqrt(u) / s - sqrt(v) / t] has the sign of
    [u / s^2 - v / t^2] for [s, t >= 0]; a negative radicand gives [NaN]. *)
Definition costSquared (e : Recommendation.t) : number :=
  let radicand := (Recommendation.diff e * Recommendation.cumDiff e)%num in
  let targetBlock := ofNat (Recommendation.targetBlock e) in
  if (radicand <? zero)%num then NaN
  else (radicand / (targetBlock * targetBlock))%num.

(** The comparator [(b, a) => cost(a) - cost(b)], up to the sign. *)
Definition byCost (b a : Recommendation.t) : number :=
  (costSquared a - costSquared b)%num.

Section Ranking.
(** [config.constants.minSavingsRate] *)
Variable minSavingsRate : number.

(** The callback of the [reduce] of [minDiff$]; the state is the variable
    [cumDiff] with the accumulated array.  [None] is the [TypeError] of
    reading [feeRate] of [xs[-1]], which is [undefined]. *)
Definition minDiffStep (st : option (number * list Recommendation.t))
    (fee : FeeDiff.t) (i : nat) (xs : list FeeDiff.t)
    : option (number * list Recommendation.t) :=
  match st with
  | None => None
  | Some (cumDiff, acc) =>
      let test :=
        if (FeeDiff.diff fee === zero)%num then Some true
        else
          match i with
          | O => None
          | S j =>
              match nth_error xs j with
              | None => None
              | Some prev =>
                  Some (FeeDiff.diff fee / FeeDiff.feeRate prev
                        >=? minSavingsRate)%num
              end
          end in
      match test with
      | None => None
      | Some ok =>
          let cumDiff := (cumDiff + FeeDiff.diff fee)%num in
          Some (cumDiff,
                acc ++ [ if ok then withCumDiff fee cumDiff true
                         else withCumDiff fee cumDiff false ])
      end
  end.

(** The array built by the [reduce] of [minDiff$]. *)
Definition mark (x : list FeeDiff.t) : option (list Recommendation.t) :=
  option_map snd (Js.reduce minDiffStep (Some (zero, [])) x).

(** The function mapped over [feeDiff$] by [minDiff$]. *)
Definition rank (x : list FeeDiff.t) : option (list Recommendation.t) :=
  match mark x with
  | None => None
  | Some marked =>
      Some (Js.sort byCost (List.filter Recommendation.valid marked))
  end.

(** What [minDiff$] emits for the combined fee estimates [x] (lines
    253-274). *)
Definition minDiff (x : list Fee.t) : option (list Recommendation.t) :=
  rank (feeDiff x).
End Ranking.

(** * The vocabulary of the properties *)

(** The object a packed transaction was built from. *)
Definition unpack (tx : MempoolTx.t) : FeeTx.t :=
  {| FeeTx.size := MempoolTx.size tx;
     FeeTx.fee := MempoolTx.fee tx;
     FeeTx.descendantsize := MempoolTx.descendantsize tx;
     FeeTx.descendantfees := MempoolTx.descendantfees tx;
     FeeTx.txid := MempoolTx.txid tx;
     FeeTx.feeRate := MempoolTx.feeRate tx |}.

Definition sizeOf (tx : MempoolTx.t) : number := toNumber (MempoolTx.size tx).

(** The running sums of [l] from [c]. *)
Fixpoint prefixSums (c : number) (l : list number) : list number :=
  match l with
  | [] => []
  | x :: l' => let c' := (c + x)%num in c' :: prefixSums c' l'
  end.

(** A size that is a number and is not negative. *)
Definition nonNegative (v : option Q) : Prop :=
  exists s, v = Some s /\ 0 <= s.

Definition nonDecreasing (l : list number) : Prop :=
  StronglySorted (fun a b => (a <=? b)%num = true) l.

(** Each element is its predecessor or its predecessor plus one. *)
Definition stepsOfAtMostOne (l : list nat) : Prop :=
  Sorted (fun a b => b = a \/ b = S a) l.

Definition feeRateNonIncreasing (l : list MempoolTx.t) : Prop :=
  StronglySorted
    (fun a b => (MempoolTx.feeRate a >=? MempoolTx.feeRate b)%num = true) l.

(** Ties of [feeRate] are in the lexicographic order of [txid]. *)
Definition tiesByTxid (out : list MempoolTx.t) : Prop :=
  forall i j t1 t2,
    nth_error out i = Some t1 -> nth_error out j = Some t2 ->
    (MempoolTx.feeRate t1 === MempoolTx.feeRate t2)%num = true ->
    String.ltb (MempoolTx.txid t1) (MempoolTx.txid t2) = true ->
    (i < j)%nat.

(** The last [k] entries of [l]. *)
Definition lastN {A : Type} (k : nat) (l : list A) : list A :=
  skipn (length l - k) l.

(** The number of entries [minQuant] keeps of [n] for the quantile [q]. *)
Definition tailSize (n : nat) (q : Q) : nat :=
  Z.to_nat (Qceiling (inject_Z (Z.of_nat n) * q) - 1).

Definition lookupQ (q : Q) (l : list (Q * number)) : option number :=
  option_map snd (find (fun kv => Qeq_bool (fst kv) q) l).

(** The entries that the [reduce] of [feeDiff$] appends from index [i]. *)
Fixpoint entriesFrom (xs : list Fee.t) (i : nat) (rest : list Fee.t)
    : list FeeDiff.t :=
  match rest with
  | [] => []
  | fee :: rest' => feeDiffEntry fee i xs :: entriesFrom xs (S i) rest'
  end.

Definition validOf (target : nat) (l : list Recommendation.t) : option bool :=
  option_map Recommendation.valid
    (find (fun e => (Recommendation.targetBlock e =? target)%nat) l).

(** A retained entry of the fee curve: a non-positive slope over a positive
    fee rate. *)
Definition retained (e : FeeDiff.t) : Prop :=
  (FeeDiff.diff e <=? zero)%num = true
  /\ (zero <? FeeDiff.feeRate e)%num = true.

(** A marked entry that is valid for a slope of 0 only. *)
Definition zeroIfValid (e : Recommendation.t) : Prop :=
  Recommendation.valid e = true -> (Recommendation.diff e === zero)%num = true.

(** The comparator of a sort by descending [key], and the order it aims at. *)
Definition descending {A : Type} (key : A -> number) (a b : A) : number :=
  (key b - key a)%num.

Definition keyGe {A : Type} (key : A -> number) (a b : A) : Prop :=
  (key a >=? key b)%num = true.

(** [out] is a list that a stable sort in descending order of [key] may
    return on [l]: the elements of [l], in descending order of the key,
    the elements of one key in the order they have in [l]. *)
Definition stableSortOf {A : Type} (key : A -> number) (l out : list A)
    : Prop :=
  Permutation out l
  /\ StronglySorted (keyGe key) out
  /\ forall r : number,
       List.filter (fun y => (key y === r)%num) out
       = List.filter (fun y => (key y === r)%num) l.

(** * Inputs of the examples *)

(** A raw entry as a node spelling the aggregates [descendant...] sends it. *)
Definition rawEntry (size fee descendantsize descendantfees : Q) : Raw.entry :=
  {| Raw.size := Some size; Raw.fee := Some fee;
     Raw.descendentsize := None; Raw.descendentfees := None;
     Raw.descendantsize := Some descendantsize;
     Raw.descendantfees := Some descendantfees |}.

(** A raw entry as a node spelling the aggregates [descendent...] sends it. *)
Definition rawEntryE (size fee descendentsize descendentfees : Q) : Raw.entry :=
  {| Raw.size := Some size; Raw.fee := Some fee;
     Raw.descendentsize := Some descendentsize;
     Raw.descendentfees := Some descendentfees;
     Raw.descendantsize := None;
     Raw.descendantfees := None |}.

Definition boundary : RawMempool :=
  [ ("a"%string, rawEntry 600000 6 600000 6);
    ("b"%string, rawEntry 100000 (1 # 2) 100000 (1 # 2));
    ("c"%string, rawEntry 500000 4 500000 4) ].

Definition degenerate : RawMempool :=
  [ ("a"%string, rawEntry 1 1 1 1);
    ("b"%string, rawEntry 1 0 0 0);
    ("c"%string, rawEntry 1 2 1 2) ].

Definition oversize : RawMempool :=
  [ ("a"%string, rawEntry 1500000 15 1500000 15) ].

Definition tieBA : RawMempool :=
  [ ("b"%string, rawEntry 250 1 250 1); ("a"%string, rawEntry 250 1 250 1) ].

Definition tieAB : RawMempool :=
  [ ("a"%string, rawEntry 250 1 250 1); ("b"%string, rawEntry 250 1 250 1) ].

Definition descendent : RawMempool :=
  [ ("a"%string, rawEntryE 250 (1 # 10000) 250 10000) ].

(** A transaction of the given rank and fee rate, of size 250. *)
Definition txOf (i : nat) (feeRate : Q) : MempoolTx.t :=
  {| MempoolTx.size := Some 250;
     MempoolTx.fee := Some (feeRate * 250);
     MempoolTx.descendantsize := Some 250;
     MempoolTx.descendantfees := Some (feeRate * 250);
     MempoolTx.txid := NilEmpty.string_of_uint (Nat.to_uint i);
     MempoolTx.feeRate := Fin feeRate;
     MempoolTx.cumSize := Fin (inject_Z (Z.of_nat (S i)) * 250);
     MempoolTx.targetBlock := 1 |}.

(** A snapshot of [n] transactions with the fee rates [n, n - 1, ..., 1]. *)
Definition snapshot (n : nat) : list MempoolTx.t :=
  map (fun i => txOf i (inject_Z (Z.of_nat (n - i)))) (seq 0 n).

(** [getFee]'s value for a target and a fee rate, at the instant 0. *)
Definition feeAt (targetBlock : nat) (feeRate : Q) : Fee.t :=
  {| Fee.feeRate := Fin feeRate; Fee.timestamp := 0%Z; Fee.date := 0%Z;
     Fee.targetBlock := targetBlock |}.

Definition scenario5 : list Fee.t :=
  [feeAt 1 100; feeAt 2 95; feeAt 3 94; feeAt 4 94].

(** * The rest of the pipeline *)

From Stdlib Require Import Qabs.

(** ** More operators *)

(** [Math.abs]. *)
Definition Math_abs (x : number) : number :=
  match x with
  | NaN => NaN
  | PInf | NInf => PInf
  | Fin q => Fin (Qabs q)
  end.

Module Stream.

Section Distinct.
Context {A : Type}.
Variable compare : A -> A -> bool.

Fixpoint distinctFrom (key : A) (l : list A) : list A :=
  match l with
  | [] => []
  | x :: l' =>
      if compare key x then distinctFrom key l' else x :: distinctFrom x l'
  end.

(** [source.distinctUntilChanged(compare)]: the first value is emitted, and
    then each value that [compare] does not equate to the value emitted
    last.  The default [compare] is [===]. *)
Definition distinctUntilChanged (l : list A) : list A :=
  match l with
  | [] => []
  | x :: l' => x :: distinctFrom x l'
  end.
End Distinct.

(** [source.bufferCount(bufferSize, 1)], of a source that does not
    complete: a buffer is opened at each value and emitted once it holds
    [bufferSize] values; with [bufferSize = 0] no buffer is ever emitted. *)
Fixpoint bufferCount {A : Type} (bufferSize : nat) (l : list A)
    : list (list A) :=
  match l with
  | [] => []
  | _ :: l' =>
      match bufferSize with
      | O => []
      | S _ =>
          if (bufferSize <=? length l)%nat
          then firstn bufferSize l :: bufferCount bufferSize l'
          else []
      end
  end.

(** [source.filter(x => x !== undefined)] on optional values. *)
Definition defined {A : Type} (l : list (option A)) : list A :=
  flat_map (fun x => match x with Some a => [a] | None => [] end) l.

End Stream.

(** More of lodash. *)
Module LodashMore.

Section Extremum.
Context {A : Type}.
Variable iteratee : A -> number.

(** One step of [baseExtremum] with the comparator [baseLt]: the state is
    the pair of [computed] and [result], [None] while they are undefined.
    The first value whose key is not [NaN] is taken, then each value whose
    key is less than [computed]. *)
Definition extremumStep (st : option (number * A)) (value : A)
    : option (number * A) :=
  let current := iteratee value in
  match st with
  | None => if isNaN current then None else Some (current, value)
  | Some (computed, _) =>
      if (current <? computed)%num then Some (current, value) else st
  end.

(** [minBy(array, iteratee)], [undefined] for an empty array and for an
    array whose keys are all [NaN]. *)
Definition minBy (array : list A) : option A :=
  option_map snd (fold_left extremumStep array None).
End Extremum.

(** [baseSum] on values that may be [undefined], which it skips. *)
Definition baseSumDefined {A : Type} (iteratee : A -> option number)
    (xs : list A) : option number :=
  fold_left
    (fun result x =>
       match iteratee x with
       | None => result
       | Some current =>
           match result with
           | None => Some current
           | Some r => Some (r + current)%num
           end
       end)
    xs None.

(** [sumBy(array, 'key')]: 0 for an empty array, else the result of
    [baseSum], [undefined] when no value is defined. *)
Definition sumByDefined {A : Type} (iteratee : A -> option number)
    (xs : list A) : option number :=
  match xs with
  | [] => Some zero
  | _ :: _ => baseSumDefined iteratee xs
  end.

End LodashMore.

(** ** The poller *)

Section Poller.
Variable blockEffectiveSize : Q.

(** [isEqual] of lodash on two results of [getRawMemPool], with all their
    fields. *)
Variable isEqual : RawMempool -> RawMempool -> bool.

(** The results of the successive calls of [getRawMemPool] are distinct
    objects: each goes with its rank, which stands for its identity. *)
Definition polled (polls : list RawMempool) : list (nat * RawMempool) :=
  combine (seq 0 (length polls)) polls.

(** The accumulator of the [scan], [(x, y) => !isEqual(x, y) ? y : x]. *)
Definition unlessEqual (x y : nat * RawMempool) : nat * RawMempool :=
  if negb (isEqual (snd x) (snd y)) then y else x.

(** [x === y] on two such objects: the comparison of their identities. *)
Definition sameObject (x y : nat * RawMempool) : bool := (fst x =? fst y)%nat.

(** [memPooler$] (lines 62-70), from the results of the calls of
    [getRawMemPool]: [scan] keeps the object it holds when the new one is
    deep-equal to it, and [distinctUntilChanged] compares identities. *)
Definition memPooler (polls : list RawMempool) : list (list MempoolTx.t) :=
  map (fun txs => sortByFee blockEffectiveSize (snd txs))
    (Stream.distinctUntilChanged sameObject
       (Rx.scan unlessEqual (polled polls))).
End Poller.

(** ** Added transactions *)

(** [addedTxs$] (lines 78-80): [flatMap] emits the transactions of each
    difference one by one. *)
Definition addedTxs (memPooler : list (list MempoolTx.t)) : list MempoolTx.t :=
  flat_map (fun txs => differenceByTxid (snd txs) (fst txs))
           (last2Mempools memPooler).

Definition txidIn (txs : list MempoolTx.t) (id : string) : Prop :=
  In id (map MempoolTx.txid txs).

(** ** The whole summary of a mined block *)

Module Summary.
Record t : Type := {
  ibi : number;
  date : Z;
  txs : nat;
  blockSize : number;
  timestamp : Z;
  fee : list (Q * number);
  minFeeTx : option MempoolTx.t
}.
End Summary.

(** The value of [minedTxsSummary$] (lines 95-113) for a mined event
    [mempool], met with the inter-block interval [ibi] at the instant
    [timestamp].  [None] is the [TypeError] of reading [ibi] of [x[0]] in an
    empty array. *)
Definition minedTxsSummaryOf (mempool : list MempoolTx.t) (ibi : number)
    (timestamp : Z) : option Summary.t :=
  let x := Js.sort byFeeRateMined mempool in
  match x with
  | [] => None
  | _ :: _ =>
      Some {| Summary.ibi := (ibi / Fin 60000)%num;
              Summary.date := timestamp;
              Summary.txs := length x;
              Summary.blockSize :=
                match LodashMore.sumByDefined
                        (fun tx => option_map Fin (MempoolTx.size tx)) x with
                | Some sum => (sum / Fin 1000000)%num
                | None => NaN
                end;
              Summary.timestamp := timestamp;
              Summary.fee := summaryFee mempool;
              Summary.minFeeTx := LodashMore.minBy MempoolTx.feeRate x |}
  end.

(** ** Velocity *)

(** [{ size: tx.size, cumSize: tx.cumSize }] *)
Module SizeTx.
Record t : Type := {
  size : option Q;
  cumSize : number
}.
End SizeTx.

(** [{ txs, ibi }]: the transactions removed until a block, with the
    inter-block interval then. *)
Module Removed.
Record t : Type := {
  ibi : number;
  txs : list SizeTx.t
}.
End Removed.

(** [combineLatest] of two sources, from their values in the order in which
    they emit them ([inl] for the first source): a value is emitted for each
    of them once both sources have emitted. *)
Fixpoint combineLatestFrom {A B C : Type} (project : A -> B -> C)
    (a : option A) (b : option B) (events : list (A + B)) : list C :=
  match events with
  | [] => []
  | e :: events' =>
      let a := match e with inl x => Some x | inr _ => a end in
      let b := match e with inl _ => b | inr y => Some y end in
      match a, b with
      | Some x, Some y => project x y :: combineLatestFrom project a b events'
      | _, _ => combineLatestFrom project a b events'
      end
  end.

Definition combineLatest {A B C : Type} (project : A -> B -> C)
    (events : list (A + B)) : list C :=
  combineLatestFrom project None None events.

Section Velocity.
Variable blockEffectiveSize : Q.
(** [config.constants.intTimeAdded] and [config.constants.intBlocksRemoved] *)
Variable intTimeAdded : Q.
Variable intBlocksRemoved : nat.

(** The accumulator of the [reduce] of [bufferRemoved$]. *)
Definition coalesce (acc y : Removed.t) : Removed.t :=
  {| Removed.ibi := (Removed.ibi y + Removed.ibi acc)%num;
     Removed.txs := Removed.txs acc ++ Removed.txs y |}.

(** [bufferRemoved$] (lines 124-136), from the values that [withLatestFrom]
    emits, one for each block. *)
Definition bufferRemoved (blocks : list Removed.t) : list Removed.t :=
  map (fun x => fold_left coalesce x {| Removed.ibi := zero; Removed.txs := [] |})
      (Stream.bufferCount intBlocksRemoved blocks).

(** [tx => tx.cumSize < targetBlock * blockEffectiveSize] *)
Definition ahead (targetBlock : nat) (tx : SizeTx.t) : bool :=
  (SizeTx.cumSize tx <? ofNat targetBlock * Fin blockEffectiveSize)%num.

(** The two [map]s of [addedBytesAheadTargetPer10min] (lines 141-144) on one
    buffer of added transactions. *)
Definition addedBytesOf (targetBlock : nat) (txs : list SizeTx.t) : number :=
  let x :=
    fold_left (fun acc tx => (acc + toNumber (SizeTx.size tx))%num)
              (List.filter (ahead targetBlock) txs) zero in
  (x / Fin intTimeAdded * Fin 10 * Fin 60000)%num.

Definition addedBytesAheadTargetPer10min (targetBlock : nat)
    (bufferAdded : list (list SizeTx.t)) : list number :=
  Stream.distinctUntilChanged Num.eqb (map (addedBytesOf targetBlock) bufferAdded).

(** The two [map]s of [removedBytesAheadTargetPer10min] (lines 150-160) on
    one value of [bufferRemoved$]; the accumulator is the pair of [value]
    and [ibi]. *)
Definition removedBytesOf (targetBlock : nat) (x : Removed.t) : number :=
  let '(value, ibi) :=
    fold_left (fun acc tx => ((toNumber (SizeTx.size tx) + fst acc)%num, snd acc))
              (List.filter (ahead targetBlock) (Removed.txs x))
              (zero, Removed.ibi x) in
  (value / (ibi / Fin 60000) * Fin 10)%num.

(** The [rmV] of the values of [removedBytesAheadTargetPer10min]. *)
Definition removedBytesAheadTargetPer10min (targetBlock : nat)
    (bufferRemoved : list Removed.t) : list number :=
  Stream.distinctUntilChanged Num.eqb (map (removedBytesOf targetBlock) bufferRemoved).
End Velocity.

(** [velocity(targetBlock)] (lines 167-176), from the values of the added
    and of the removed bytes in the order of their emission. *)
Definition velocity (events : list (number + number)) : list number :=
  Stream.distinctUntilChanged Num.eqb
    (combineLatest (fun addV rmV => (addV - rmV)%num) events).

(** ** Positions and fee estimates *)

(** [finalPosition(targetBlock)] (lines 185-189), from the snapshots. *)
Definition finalPosition (targetBlock : nat)
    (memPooler : list (list MempoolTx.t)) : list number :=
  map MempoolTx.cumSize
    (Stream.defined
       (map (fun txs =>
               find (fun tx => (MempoolTx.targetBlock tx =? targetBlock + 1)%nat)
                    txs)
            memPooler)).

Definition square (n : number) : number := (n * n)%num.

(** The projection of [initialPosition(targetBlock)] (line 197). *)
Definition initialPositionOf (targetBlock : nat) (x v a : number) : number :=
  (x - (v * ofNat targetBlock
        + Fin 1 / Fin 2 * a * square (ofNat targetBlock)))%num.

(** [{ ...tx, distance }] *)
Module Candidate.
Record t : Type := {
  tx : MempoolTx.t;
  distance : number
}.
End Candidate.

(** The two [map]s of [getFeeTx(targetBlock)] (lines 206-208) on a
    position and a snapshot. *)
Definition getFeeTxOf (pos : number) (txs : list MempoolTx.t)
    : option Candidate.t :=
  LodashMore.minBy Candidate.distance
    (map (fun tx =>
            {| Candidate.tx := tx;
               Candidate.distance := Math_abs (MempoolTx.cumSize tx - pos)%num |})
         txs).

(** The value of [getFee(targetBlock)] (lines 212-223) for the transaction
    found, at the instant [timestamp]. *)
Definition getFeeOf (targetBlock : nat) (timestamp : Z) (x : Candidate.t)
    : Fee.t :=
  {| Fee.feeRate := (MempoolTx.feeRate (Candidate.tx x) * Fin (999 # 1000))%num;
     Fee.timestamp := timestamp;
     Fee.date := timestamp;
     Fee.targetBlock := targetBlock |}.

(** What [getFee(targetBlock)] emits, if anything, when [getFeeTx] combines
    the position [pos] with the snapshot [txs]. *)
Definition estimateOf (targetBlock : nat) (timestamp : Z) (pos : number)
    (txs : list MempoolTx.t) : option Fee.t :=
  option_map (getFeeOf targetBlock timestamp) (getFeeTxOf pos txs).

(** ** The vocabulary of the further properties *)

(** Along [l], the target block is the previous one plus one exactly when
    [cumSize] exceeds the previous target block times [blockEffectiveSize];
    [prev] is the target block before [l]. *)
Fixpoint crossings (blockEffectiveSize : Q) (prev : nat)
    (l : list MempoolTx.t) : Prop :=
  match l with
  | [] => True
  | tx :: l' =>
      ((ofNat prev * Fin blockEffectiveSize <? MempoolTx.cumSize tx)%num = true
       /\ MempoolTx.targetBlock tx = S prev
       \/ (MempoolTx.cumSize tx <=? ofNat prev * Fin blockEffectiveSize)%num = true
          /\ MempoolTx.targetBlock tx = prev)
      /\ crossings blockEffectiveSize (MempoolTx.targetBlock tx) l'
  end.

(** No two neighbours of [l] are equated by [compare]. *)
Definition changing {A : Type} (compare : A -> A -> bool) (l : list A) : Prop :=
  Sorted (fun a b => compare a b = false) l.

(** What [baseExtremum] has computed once it has visited [seen]: nothing
    when every key is [NaN]; else an element whose key is a number, below
    the key of every element before it and not above the key of any
    element. *)
Definition extremumOf {A : Type} (iteratee : A -> number) (seen : list A)
    (st : option (number * A)) : Prop :=
  match st with
  | None => Forall (fun y => iteratee y = NaN) seen
  | Some (computed, result) =>
      computed = iteratee result /\ computed <> NaN
      /\ exists before after,
           seen = before ++ result :: after
           /\ Forall (fun y => (iteratee y <=? computed)%num = false) before
           /\ Forall (fun y => (iteratee y <? computed)%num = false) after
  end.

(** The rational that a number is, 0 when it is none. *)
Definition rateOf (x : number) : Q :=
  match x with
  | Fin q => q
  | _ => 0
  end.

Definition Qsum (l : list Q) : Q := fold_right Qplus 0 l.

Definition nonNegativeSizes (txs : list SizeTx.t) : Prop :=
  Forall (fun tx => nonNegative (SizeTx.size tx)) txs.

Definition sizeSum (txs : list SizeTx.t) : Q :=
  Qsum (map (fun tx => rateOf (toNumber (SizeTx.size tx))) txs).

(** The distance of a transaction to a position. *)
Definition distanceTo (pos : number) (tx : MempoolTx.t) : number :=
  Math_abs (MempoolTx.cumSize tx - pos)%num.

(** ** Inputs of the further examples *)

(** A mempool whose second entry, by fee rate, has no [size]. *)
Definition sizeless : RawMempool :=
  [ ("a"%string, rawEntry 1 3 1 3);
    ("b"%string,
     {| Raw.size := None; Raw.fee := Some 2;
        Raw.descendentsize := None; Raw.descendentfees := None;
        Raw.descendantsize := Some 1; Raw.descendantfees := Some 2 |});
    ("c"%string, rawEntry 1 1 1 1) ].

(** A removed buffer without transaction and with a null interval. *)
Definition idleBlock : Removed.t :=
  {| Removed.ibi := zero; Removed.txs := [] |}.

Definition sizeTx (size cumSize : Q) : SizeTx.t :=
  {| SizeTx.size := Some size; SizeTx.cumSize := Fin cumSize |}.

(** Three transactions, at the positions 400 000, 900 000 and 1 300 000. *)
Definition threeTxs : list SizeTx.t :=
  [sizeTx 400000 400000; sizeTx 500000 900000; sizeTx 400000 1300000].

Definition blockOf (ibi : Q) (txs : list SizeTx.t) : Removed.t :=
  {| Removed.ibi := Fin ibi; Removed.txs := txs |}.

(** * Properties *)

(** ** Facts on numbers *)

Module NumFacts.

Lemma Qlt_bool_iff (a b : Q) : Qlt_bool a b = true <-> a < b.
Proof.
  unfold Qlt_bool. rewrite negb_true_iff.
  split; intro H.
  - apply Qnot_le_lt. intro Hle. apply Qle_bool_iff in Hle. congruence.
  - destruct (Qle_bool b a) eqn:E; [|reflexivity].
    apply Qle_bool_iff in E. lra.
Qed.

Lemma Qlt_bool_false (a b : Q) : Qlt_bool a b = false <-> b <= a.
Proof.
  unfold Qlt_bool. rewrite negb_false_iff. apply Qle_bool_iff.
Qed.

Lemma Qle_bool_false (a b : Q) : Qle_bool a b = false <-> b < a.
Proof.
  rewrite <- Qlt_bool_iff. unfold Qlt_bool.
  destruct (Qle_bool a b); simpl; intuition congruence.
Qed.

Lemma Qeq_bool_false (a b : Q) : Qeq_bool a b = false <-> ~ a == b.
Proof.
  split.
  - intros H E. apply Qeq_bool_iff in E. congruence.
  - intro H. destruct (Qeq_bool a b) eqn:E; [|reflexivity].
    apply Qeq_bool_iff in E. contradiction.
Qed.

End NumFacts.

(** Turns the boolean tests on rationals of the context and of the goal
    into propositions. *)
Ltac qprop :=
  repeat match goal with
  | H : Qlt_bool _ _ = true |- _ => apply NumFacts.Qlt_bool_iff in H
  | H : Qlt_bool _ _ = false |- _ => apply NumFacts.Qlt_bool_false in H
  | H : Qle_bool _ _ = true |- _ => apply Qle_bool_iff in H
  | H : Qle_bool _ _ = false |- _ => apply NumFacts.Qle_bool_false in H
  | H : Qeq_bool _ _ = true |- _ => apply Qeq_bool_iff in H
  | H : Qeq_bool _ _ = false |- _ => apply NumFacts.Qeq_bool_false in H
  | |- Qlt_bool _ _ = true => apply NumFacts.Qlt_bool_iff
  | |- Qlt_bool _ _ = false => apply NumFacts.Qlt_bool_false
  | |- Qle_bool _ _ = true => apply Qle_bool_iff
  | |- Qle_bool _ _ = false => apply NumFacts.Qle_bool_false
  | |- Qeq_bool _ _ = true => apply Qeq_bool_iff
  | |- Qeq_bool _ _ = false => apply NumFacts.Qeq_bool_false
  end.

Module SortFacts.

Section Generic.
Context {A : Type}.
Variable compareFn : A -> A -> number.

Lemma insert_perm (x : A) (l : list A) :
  Permutation (Js.insert compareFn x l) (x :: l).
Proof.
  induction l as [|y l IH]; simpl.
  - reflexivity.
  - destruct (compareFn x y >? zero)%num.
    + apply perm_trans with (y :: x :: l);
        [now apply perm_skip | apply perm_swap].
    + reflexivity.
Qed.

Lemma sort_perm (l : list A) : Permutation (Js.sort compareFn l) l.
Proof.
  induction l as [|x l IH]; simpl.
  - reflexivity.
  - unfold Js.sort in *. simpl.
    apply perm_trans with (x :: fold_right (Js.insert compareFn) [] l);
      [apply insert_perm | now apply perm_skip].
Qed.

Lemma sort_length (l : list A) : length (Js.sort compareFn l) = length l.
Proof. apply Permutation_length, sort_perm. Qed.

Lemma sort_In (x : A) (l : list A) : In x (Js.sort compareFn l) <-> In x l.
Proof.
  split; apply Permutation_in; [|symmetry]; apply sort_perm.
Qed.
End Generic.

(** Sorting on a numeric key, in descending order of the key. *)
Section Descending.
Context {A : Type}.
Variable key : A -> number.

#[local] Abbreviation desc := (descending key).
#[local] Abbreviation ge := (keyGe key).

Lemma desc_gt (a b : A) :
  key a <> NaN -> key b <> NaN ->
  (desc a b >? zero)%num = (key a <? key b)%num.
Proof.
  unfold descending. intros Ha Hb.
  destruct (key a) as [| | |p], (key b) as [| | |q];
    try congruence; try reflexivity.
  unfold gtb, sub, zero. simpl.
  destruct (Qlt_bool p q) eqn:E; qprop; lra.
Qed.

Lemma ge_total (a b : A) :
  key a <> NaN -> key b <> NaN ->
  (key a <? key b)%num = false -> ge a b.
Proof.
  unfold keyGe, geb. intros Ha Hb.
  destruct (key a) as [| | |p], (key b) as [| | |q];
    try congruence; try reflexivity; simpl; try discriminate.
  intro H. qprop. lra.
Qed.

Lemma lt_ge (a b : A) : (key a <? key b)%num = true -> ge b a.
Proof.
  unfold keyGe, geb.
  destruct (key a) as [| | |p], (key b) as [| | |q];
    try discriminate; try reflexivity; simpl.
  intro H. qprop. lra.
Qed.

Lemma ge_trans (a b c : A) : ge a b -> ge b c -> ge a c.
Proof.
  unfold keyGe, geb.
  destruct (key a) as [| | |p], (key b) as [| | |q], (key c) as [| | |r];
    try discriminate; try reflexivity; simpl.
  intros H1 H2. qprop. lra.
Qed.

Lemma insert_sorted (x : A) (l : list A) :
  key x <> NaN -> Forall (fun y => key y <> NaN) l ->
  Sorted ge l -> Sorted ge (Js.insert desc x l).
Proof.
  intros Hx Hl Hs. induction l as [|y l IH]; simpl.
  - repeat constructor.
  - inversion Hl as [|? ? Hy Hl']; subst.
    inversion Hs as [|? ? Hs' Hhd]; subst.
    rewrite (desc_gt x y Hx Hy).
    destruct (key x <? key y)%num eqn:E.
    + constructor.
      * now apply IH.
      * destruct l as [|z l]; simpl.
        -- constructor. now apply lt_ge.
        -- inversion Hl' as [|? ? Hz _]; subst.
           rewrite (desc_gt x z Hx Hz).
           destruct (key x <? key z)%num.
           ++ inversion Hhd; subst. now constructor.
           ++ constructor. now apply lt_ge.
    + constructor; [assumption|]. constructor. now apply ge_total.
Qed.

Lemma sort_sorted (l : list A) :
  Forall (fun y => key y <> NaN) l ->
  StronglySorted ge (Js.sort desc l).
Proof.
  intro Hl. apply Sorted_StronglySorted.
  - intros a b c. apply ge_trans.
  - induction Hl as [|x l Hx Hl IH]; simpl.
    + constructor.
    + change (Js.sort desc (x :: l))
        with (Js.insert desc x (Js.sort desc l)).
      apply insert_sorted; try assumption.
      apply Forall_forall. intros y Hy.
      apply sort_In in Hy.
      rewrite Forall_forall in Hl. now apply Hl.
Qed.

(** Stability: the elements of one key keep their order. *)
Lemma insert_filter (r : number) (x : A) (l : list A) :
  List.filter (fun y => (key y === r)%num) (Js.insert desc x l)
  = List.filter (fun y => (key y === r)%num) (x :: l).
Proof.
  induction l as [|y l IH]; simpl.
  - reflexivity.
  - destruct (desc x y >? zero)%num eqn:E; simpl.
    + simpl in IH. rewrite IH.
      destruct (key x === r)%num eqn:Ex; [|reflexivity].
      destruct (key y === r)%num eqn:Ey; [|reflexivity].
      exfalso. unfold descending in E. clear IH.
      destruct (key x) as [| | |p], (key y) as [| | |q], r as [| | |s];
        simpl in *; try discriminate.
      unfold gtb, sub, zero in E. simpl in E. qprop. lra.
    + reflexivity.
Qed.

Lemma sort_filter (r : number) (l : list A) :
  List.filter (fun y => (key y === r)%num) (Js.sort desc l)
  = List.filter (fun y => (key y === r)%num) l.
Proof.
  induction l as [|x l IH]; simpl.
  - reflexivity.
  - unfold Js.sort in *. simpl. rewrite insert_filter. simpl.
    now rewrite IH.
Qed.

(** With finite keys the comparator is consistent, and the list that a
    stable sort returns is determined. *)
Lemma stable_unique (l1 l2 : list A) :
  Forall (fun y => isFinite (key y) = true) l1 ->
  Permutation l1 l2 ->
  StronglySorted ge l1 -> StronglySorted ge l2 ->
  (forall r : number,
      List.filter (fun y => (key y === r)%num) l1
      = List.filter (fun y => (key y === r)%num) l2) ->
  l1 = l2.
Proof.
  revert l2. induction l1 as [|x t1 IH]; intros l2 Hfin Hperm Hs1 Hs2 Hf.
  - now apply Permutation_nil in Hperm.
  - destruct l2 as [|y t2];
      [symmetry in Hperm; now apply Permutation_nil in Hperm|].
    inversion Hfin as [|? ? Hx Hfin']; subst.
    inversion Hs1 as [|? ? Hs1' Hx1]; subst.
    inversion Hs2 as [|? ? Hs2' Hy2]; subst.
    assert (Hy : isFinite (key y) = true).
    { assert (Hin : In y (x :: t1))
        by (eapply Permutation_in; [symmetry; exact Hperm | now left]).
      rewrite Forall_forall in Hfin. now apply Hfin. }
    assert (Hxy : (key x === key y)%num = true).
    { assert (Hin1 : In y (x :: t1))
        by (eapply Permutation_in; [symmetry; exact Hperm | now left]).
      assert (Hin2 : In x (y :: t2))
        by (eapply Permutation_in; [exact Hperm | now left]).
      rewrite Forall_forall in Hx1, Hy2.
      assert (G1 : x = y \/ ge x y)
        by (destruct Hin1 as [E|Hin1]; [now left | right; now apply Hx1]).
      assert (G2 : x = y \/ ge y x)
        by (destruct Hin2 as [E|Hin2];
            [left; now symmetry | right; now apply Hy2]).
      unfold keyGe, geb in G1, G2.
      destruct (key x) as [| | |p] eqn:Ex, (key y) as [| | |q] eqn:Ey;
        try discriminate. simpl.
      destruct G1 as [E|G1];
        [subst y; rewrite Ex in Ey; injection Ey as ->; qprop; lra|].
      destruct G2 as [E|G2];
        [subst y; rewrite Ex in Ey; injection Ey as ->; qprop; lra|].
      simpl in G1, G2. qprop. lra. }
    assert (Hxx : (key x === key x)%num = true).
    { destruct (key x) as [| | |p]; try discriminate. simpl. qprop. lra. }
    assert (Hyx : (key y === key x)%num = true).
    { destruct (key x) as [| | |p], (key y) as [| | |q]; try discriminate.
      simpl in *. qprop. lra. }
    pose proof (Hf (key x)) as H0. simpl in H0. rewrite Hxx, Hyx in H0.
    injection H0 as -> _.
    f_equal. apply IH; try assumption.
    + now apply Permutation_cons_inv in Hperm.
    + intro r. specialize (Hf r). simpl in Hf.
      destruct (key y === r)%num; [now injection Hf | assumption].
Qed.

Lemma sort_stable (l : list A) :
  Forall (fun y => isFinite (key y) = true) l ->
  stableSortOf key l (Js.sort desc l).
Proof.
  intro Hfin. split; [apply sort_perm|]. split; [|intro r; apply sort_filter].
  apply sort_sorted. apply Forall_forall. intros y Hy E.
  rewrite Forall_forall in Hfin. specialize (Hfin _ Hy).
  rewrite E in Hfin. discriminate.
Qed.

Lemma stable_sort_unique (l out : list A) :
  Forall (fun y => isFinite (key y) = true) l ->
  stableSortOf key l out -> out = Js.sort desc l.
Proof.
  intros Hfin [Hperm [Hsorted Hf]].
  destruct (sort_stable l Hfin) as [Hperm' [Hsorted' Hf']].
  apply stable_unique; try assumption.
  - apply Forall_forall. intros y Hy.
    rewrite Forall_forall in Hfin. apply Hfin.
    eapply Permutation_in; [exact Hperm | exact Hy].
  - apply perm_trans with l; [assumption | now symmetry].
  - intro r. now rewrite Hf, Hf'.
Qed.

(** Two elements of one finite key are ordered neither way by the
    comparator. *)
Lemma desc_tie (a b : A) :
  isFinite (key a) = true -> (key a === key b)%num = true ->
  (desc a b === zero)%num = true.
Proof.
  unfold descending. intros Ha E.
  destruct (key a) as [| | |p], (key b) as [| | |q]; try discriminate.
  unfold sub, zero. simpl in *. qprop. lra.
Qed.
End Descending.

End SortFacts.

(** ** The packing *)

Module PackFacts.

Section Pack.
Variable blockEffectiveSize : Q.
#[local] Abbreviation pack := (pack blockEffectiveSize).

Lemma unpack_pack c tb n l : map unpack (pack c tb n l) = l.
Proof.
  revert c tb n. induction l as [|tx l IH]; intros; simpl.
  - reflexivity.
  - rewrite IH. now destruct tx.
Qed.

Lemma pack_cumSize c tb n l :
  map MempoolTx.cumSize (pack c tb n l)
  = prefixSums c (map sizeOf (pack c tb n l)).
Proof.
  revert c tb n. induction l as [|tx l IH]; intros; simpl;
    [reflexivity | now rewrite <- IH].
Qed.

Lemma pack_targetBlock c tb n l :
  stepsOfAtMostOne (tb :: map MempoolTx.targetBlock (pack c tb n l)).
Proof.
  unfold stepsOfAtMostOne.
  revert c tb n. induction l as [|tx l IH]; intros; simpl.
  - repeat constructor.
  - constructor; [apply IH|].
    constructor. destruct (_ >? _)%num; [right; lia | now left].
Qed.

Lemma pack_sorted c tb n l :
  feeRateNonIncreasing (pack c tb n l)
  <-> StronglySorted (keyGe FeeTx.feeRate) l.
Proof.
  rewrite <- (unpack_pack c tb n l) at 2.
  unfold feeRateNonIncreasing.
  induction (pack c tb n l) as [|tx out IH]; simpl.
  - split; constructor.
  - split; intro H; inversion H as [|? ? Hs Hall]; subst; constructor;
      try (now apply IH).
    + apply Forall_forall. intros y Hy.
      apply in_map_iff in Hy. destruct Hy as [z [<- Hz]].
      rewrite Forall_forall in Hall. exact (Hall z Hz).
    + apply Forall_forall. intros z Hz.
      rewrite Forall_forall in Hall.
      exact (Hall (unpack z) (in_map unpack _ _ Hz)).
Qed.
End Pack.

Lemma steps_nonDecreasing (l : list nat) :
  stepsOfAtMostOne l -> StronglySorted le l.
Proof.
  intro H. apply Sorted_StronglySorted.
  - intros a b c. apply Nat.le_trans.
  - induction H as [|a l Hs IH Hhd]; constructor; [exact IH|].
    destruct Hhd as [|b l Hab]; constructor. lia.
Qed.

Lemma prefixSums_nonDecreasing (c : Q) (l : list number) :
  Forall (fun x => exists s, x = Fin s /\ 0 <= s) l ->
  nonDecreasing (prefixSums (Fin c) l)
  /\ Forall (fun y => exists d, y = Fin d /\ c <= d) (prefixSums (Fin c) l).
Proof.
  unfold nonDecreasing.
  intro H. revert c. induction H as [|x l [s [-> Hs]] Hl IH]; intro c; simpl.
  - split; constructor.
  - destruct (IH (c + s)) as [IH1 IH2]. split.
    + constructor; [assumption|].
      eapply Forall_impl; [|exact IH2].
      intros y [d [-> Hd]]. simpl. qprop. lra.
    + constructor.
      * exists (c + s). split; [reflexivity | lra].
      * eapply Forall_impl; [|exact IH2].
        intros y [d [-> Hd]]. exists d. split; [reflexivity | lra].
Qed.

End PackFacts.

Module SortByFee.

Lemma unpack_sortByFee bes txs :
  map unpack (sortByFee bes txs) = Js.sort byFeeRate (map project txs).
Proof. apply PackFacts.unpack_pack. Qed.

(** C5, as the code has it.  For every raw mempool whose sizes are
    non-negative numbers, [sortByFee] returns the entries of the mempool,
    each once, with a [cumSize] that is the prefix sum of [size] along the
    sequence and does not decrease, and a [targetBlock] that does not
    decrease and whose consecutive differences are 0 or 1; when moreover
    no fee rate is [NaN], the [feeRate] does not increase along the
    sequence. *)
Theorem sortByFee_invariants (blockEffectiveSize : Q) (txs : RawMempool) :
  Forall (fun kv => nonNegative (Raw.size (snd kv))) txs ->
  let out := sortByFee blockEffectiveSize txs in
  Permutation (map unpack out) (map project txs)
  /\ map MempoolTx.cumSize out = prefixSums zero (map sizeOf out)
  /\ nonDecreasing (map MempoolTx.cumSize out)
  /\ StronglySorted le (map MempoolTx.targetBlock out)
  /\ stepsOfAtMostOne (map MempoolTx.targetBlock out)
  /\ (Forall (fun kv => FeeTx.feeRate (project kv) <> NaN) txs ->
      feeRateNonIncreasing out).
Proof.
  intros Hsize out.
  assert (Hperm : Permutation (map unpack out) (map project txs)).
  { unfold out. rewrite unpack_sortByFee. apply SortFacts.sort_perm. }
  split; [exact Hperm|].
  assert (Hcum : map MempoolTx.cumSize out = prefixSums zero (map sizeOf out))
    by apply PackFacts.pack_cumSize.
  assert (Hsteps : stepsOfAtMostOne (map MempoolTx.targetBlock out)).
  { pose proof (PackFacts.pack_targetBlock blockEffectiveSize zero 1 1
                  (Js.sort byFeeRate (map project txs))) as H.
    inversion H; subst. assumption. }
  split; [exact Hcum|].
  split; [|split; [now apply PackFacts.steps_nonDecreasing|split]];
    [|exact Hsteps|].
  - rewrite Hcum. apply PackFacts.prefixSums_nonDecreasing.
    apply Forall_forall. intros x Hx.
    apply in_map_iff in Hx. destruct Hx as [tx [<- Htx]].
    assert (Hin : In (unpack tx) (map project txs))
      by (eapply Permutation_in; [exact Hperm | now apply in_map]).
    apply in_map_iff in Hin. destruct Hin as [[k e] [Hkv Hin]].
    rewrite Forall_forall in Hsize. specialize (Hsize _ Hin).
    destruct Hsize as [s [Hs Hpos]]. simpl in Hs.
    exists s. split; [|assumption].
    unfold sizeOf.
    replace (MempoolTx.size tx) with (FeeTx.size (unpack tx)) by reflexivity.
    rewrite <- Hkv. simpl. now rewrite Hs.
  - intro Hrate. apply PackFacts.pack_sorted.
    apply (SortFacts.sort_sorted FeeTx.feeRate).
    apply Forall_forall. intros x Hx.
    apply in_map_iff in Hx. destruct Hx as [kv [<- Hin]].
    rewrite Forall_forall in Hrate. now apply Hrate.
Qed.

(** On the mempool with a [0 / 0] fee rate the parts on [cumSize] and
    [targetBlock] hold; on the packing scenario of the specification all
    parts hold. *)
Lemma sortByFee_invariants_witness :
  (let out := sortByFee 1000000 degenerate in
   map MempoolTx.cumSize out = prefixSums zero (map sizeOf out)
   /\ nonDecreasing (map MempoolTx.cumSize out)
   /\ stepsOfAtMostOne (map MempoolTx.targetBlock out))
  /\ let out := sortByFee 1000000 boundary in
     map MempoolTx.txid out = ["a"; "c"; "b"]%string
     /\ map MempoolTx.targetBlock out = [1; 2; 2]%nat
     /\ Permutation (map unpack out) (map project boundary)
     /\ map MempoolTx.cumSize out = prefixSums zero (map sizeOf out)
     /\ nonDecreasing (map MempoolTx.cumSize out)
     /\ StronglySorted le (map MempoolTx.targetBlock out)
     /\ stepsOfAtMostOne (map MempoolTx.targetBlock out)
     /\ feeRateNonIncreasing out.
Proof.
  split.
  - destruct (sortByFee_invariants 1000000 degenerate)
      as [_ [Hc [Hn [_ [Hs _]]]]].
    + repeat constructor; simpl; eexists; (split; [reflexivity | lra]).
    + repeat split; assumption.
  - split; [reflexivity|]. split; [reflexivity|].
    destruct (sortByFee_invariants 1000000 boundary)
      as [Hp [Hc [Hn [Ht [Hs Hf]]]]].
    + repeat constructor; simpl; eexists; (split; [reflexivity | lra]).
    + repeat (split; [assumption|]). apply Hf.
      repeat constructor; simpl; discriminate.
Defined.

(** C5 as stated fails: the sizes are non-negative, the second entry has
    the fee rate [0 / 0], and the fee rates of the packed sequence are
    [1, NaN, 2]. *)
Lemma sortByFee_feeRate_increases :
  Forall (fun kv => nonNegative (Raw.size (snd kv))) degenerate
  /\ map MempoolTx.feeRate (sortByFee 1000000 degenerate)
     = [Fin (1 / 1); NaN; Fin (2 / 1)]
  /\ ~ feeRateNonIncreasing (sortByFee 1000000 degenerate).
Proof.
  split; [|split].
  - repeat constructor; simpl; eexists; (split; [reflexivity | lra]).
  - reflexivity.
  - intro H. inversion H as [|? ? _ Hall]; subst.
    inversion Hall as [|? ? Hb _]; subst. discriminate Hb.
Qed.

(** C6, as the code has it.  In a mempool of a single transaction whose
    size exceeds [blockEffectiveSize], the size crosses the first multiple
    of [blockEffectiveSize] when the transaction is visited: both counters
    are incremented, once, and the transaction gets the target block 2. *)
Theorem single_oversize_targetBlock (blockEffectiveSize : Q) (txid : string)
    (e : Raw.entry) (s : Q) :
  Raw.size e = Some s ->
  blockEffectiveSize < s ->
  map MempoolTx.targetBlock (sortByFee blockEffectiveSize [(txid, e)]) = [2%nat]
  /\ countersAfter blockEffectiveSize [(txid, e)] = (2%nat, 2%nat).
Proof.
  intros Hs Hlt.
  assert (Hcross : (Fin (0 + s) >? Fin (inject_Z 1 * blockEffectiveSize))%num
                   = true).
  { unfold gtb. simpl. qprop. change (inject_Z 1) with 1. lra. }
  unfold countersAfter, sortByFee, sortByFeeFrom. simpl.
  rewrite Hs. simpl. rewrite Hcross. split; reflexivity.
Qed.

Lemma single_oversize_targetBlock_witness :
  map MempoolTx.targetBlock (sortByFee 1000000 oversize) = [2%nat]
  /\ countersAfter 1000000 oversize = (2%nat, 2%nat).
Proof.
  apply (single_oversize_targetBlock 1000000 "a" _ 1500000).
  - reflexivity.
  - reflexivity.
Defined.

(** C6 as stated fails: with [blockEffectiveSize = 1 000 000], the single
    transaction of size 1 500 000 does not get the target block 1, and the
    counters do not keep their initial value 1. *)
Lemma single_oversize_not_first_block :
  exists tx,
    sortByFee 1000000 oversize = [tx]
    /\ MempoolTx.size tx = Some 1500000
    /\ MempoolTx.targetBlock tx <> 1%nat
    /\ countersAfter 1000000 oversize <> (1%nat, 1%nat).
Proof.
  eexists. split; [reflexivity|]. split; [reflexivity|].
  split; discriminate.
Qed.

(** C9, as the code has it.  The comparator reads [feeRate] alone: on two
    transactions of one fee rate it returns 0, whatever their txids, and
    leaves their order to the sort.  When every fee rate is a finite
    number and the sort is stable, the transactions of one fee rate
    appear in the packed sequence in the order in which the input mapping
    enumerates them; the list of [sortByFee] is then the only one that a
    stable sort in descending order of the fee rate can return. *)
Theorem sortByFee_ties_in_enumeration_order (blockEffectiveSize : Q)
    (txs : RawMempool) :
  Forall (fun kv => isFinite (FeeTx.feeRate (project kv)) = true) txs ->
  (forall a b : string * Raw.entry,
      In a txs -> In b txs ->
      (FeeTx.feeRate (project a) === FeeTx.feeRate (project b))%num = true ->
      (byFeeRate (project a) (project b) === zero)%num = true)
  /\ (forall r : number,
        map MempoolTx.txid
          (List.filter (fun tx => (MempoolTx.feeRate tx === r)%num)
             (sortByFee blockEffectiveSize txs))
        = map fst
            (List.filter
               (fun kv => (FeeTx.feeRate (project kv) === r)%num) txs))
  /\ (forall out : list FeeTx.t,
        stableSortOf FeeTx.feeRate (map project txs) out ->
        map unpack (sortByFee blockEffectiveSize txs) = out).
Proof.
  intro Hfin.
  assert (Hfin' : Forall (fun t => isFinite (FeeTx.feeRate t) = true)
                    (map project txs)).
  { apply Forall_forall. intros t Ht. apply in_map_iff in Ht.
    destruct Ht as [kv [<- Hin]].
    rewrite Forall_forall in Hfin. now apply Hfin. }
  split; [|split].
  - intros a b Ha _ E.
    apply (SortFacts.desc_tie FeeTx.feeRate); [|assumption].
    rewrite Forall_forall in Hfin. now apply Hfin.
  - intro r.
    assert (Hf : forall l : list MempoolTx.t,
               map unpack
                 (List.filter (fun tx => (MempoolTx.feeRate tx === r)%num) l)
               = List.filter (fun t => (FeeTx.feeRate t === r)%num)
                   (map unpack l)).
    { induction l as [|tx l IH]; simpl; [reflexivity|].
      destruct (MempoolTx.feeRate tx === r)%num; simpl; now rewrite IH. }
    assert (Hg : forall l : RawMempool,
               map FeeTx.txid
                 (List.filter (fun t => (FeeTx.feeRate t === r)%num)
                    (map project l))
               = map fst
                   (List.filter
                      (fun kv => (FeeTx.feeRate (project kv) === r)%num) l)).
    { induction l as [|[k e] l IH]; simpl; [reflexivity|].
      destruct (_ === r)%num; simpl; now rewrite IH. }
    rewrite <- Hg.
    rewrite <- (SortFacts.sort_filter FeeTx.feeRate r (map project txs)).
    change (fun a b : FeeTx.t => (FeeTx.feeRate b - FeeTx.feeRate a)%num)
      with byFeeRate.
    rewrite <- unpack_sortByFee with (bes := blockEffectiveSize).
    rewrite <- Hf. rewrite map_map. reflexivity.
  - intros out Hout. rewrite unpack_sortByFee. symmetry.
    now apply (SortFacts.stable_sort_unique FeeTx.feeRate).
Qed.

(** Two transactions of the fee rate 1 / 250, enumerated ["b"] then
    ["a"]: they are packed in that order. *)
Lemma sortByFee_ties_in_enumeration_order_witness :
  map MempoolTx.txid
    (List.filter (fun tx => (MempoolTx.feeRate tx === Fin (1 # 250))%num)
       (sortByFee 1000000 tieBA))
  = ["b"; "a"]%string.
Proof.
  rewrite (proj1 (proj2 (sortByFee_ties_in_enumeration_order 1000000 tieBA
                           ltac:(repeat constructor)))).
  reflexivity.
Defined.

(** C9 as stated fails: of two transactions of one fee rate, the mapping
    enumerates ["b"] first and ["b"] is packed first; the same two entries
    enumerated in the other order give another snapshot. *)
Lemma sortByFee_ties_not_by_txid :
  map MempoolTx.txid (sortByFee 1000000 tieBA) = ["b"; "a"]%string
  /\ ~ tiesByTxid (sortByFee 1000000 tieBA)
  /\ Permutation tieAB tieBA
  /\ sortByFee 1000000 tieAB <> sortByFee 1000000 tieBA.
Proof.
  split; [reflexivity|]. split; [|split].
  - intro H.
    specialize (H 1%nat 0%nat _ _ eq_refl eq_refl eq_refl eq_refl). lia.
  - apply perm_swap.
  - discriminate.
Qed.

(** C4.  An entry that carries the aggregates under [descendentsize] and
    [descendentfees] only has no [descendantfees] and no [descendantsize]:
    the quotient that [sortByFee] computes is [undefined / undefined], and
    every transaction it returns has the fee rate [NaN]. *)
Theorem sortByFee_descendent_feeRate_NaN (blockEffectiveSize : Q)
    (txs : RawMempool) :
  Forall (fun kv => Raw.descendantsize (snd kv) = None
                    /\ Raw.descendantfees (snd kv) = None) txs ->
  Forall (fun tx => MempoolTx.feeRate tx = NaN)
         (sortByFee blockEffectiveSize txs).
Proof.
  intro H. apply Forall_forall. intros tx Htx.
  assert (Hin : In (unpack tx) (map project txs)).
  { eapply Permutation_in; [|apply in_map; exact Htx].
    rewrite unpack_sortByFee. apply SortFacts.sort_perm. }
  apply in_map_iff in Hin. destruct Hin as [[k e] [Hkv Hin]].
  rewrite Forall_forall in H. destruct (H _ Hin) as [H1 H2]. simpl in H1, H2.
  replace (MempoolTx.feeRate tx) with (FeeTx.feeRate (unpack tx)) by reflexivity.
  rewrite <- Hkv. simpl. now rewrite H1, H2.
Qed.

(** The transaction built from an entry with [descendentsize = 250] and
    [descendentfees = 10000] has these as its descendant size and fees,
    whose quotient is 40, and has the fee rate [NaN]. *)
Lemma sortByFee_descendent_feeRate_NaN_witness :
  exists tx,
    sortByFee 1000000 descendent = [tx]
    /\ MempoolTx.descendantsize tx = Some 250
    /\ MempoolTx.descendantfees tx = Some 10000
    /\ (toNumber (MempoolTx.descendantfees tx)
        / toNumber (MempoolTx.descendantsize tx) === Fin 40)%num = true
    /\ Forall (fun tx => MempoolTx.feeRate tx = NaN)
              (sortByFee 1000000 descendent).
Proof.
  eexists. split; [reflexivity|].
  split; [reflexivity|]. split; [reflexivity|]. split; [reflexivity|].
  apply (sortByFee_descendent_feeRate_NaN 1000000 descendent).
  repeat constructor.
Defined.

End SortByFee.

(** ** Mined blocks *)

Module Mined.

(** C7.  A set of removed transactions is forwarded to the mined pipeline
    if and only if it has strictly more than 500 transactions: one of
    exactly 500 is not, one of 501 is. *)
Theorem minedTxs_threshold :
  (forall memPooler txs,
      In txs (minedTxs memPooler)
      <-> In txs (removedTxsShared memPooler) /\ (500 < length txs)%nat)
  /\ (forall txs, minedBlockProxy txs = true <-> (500 < length txs)%nat)
  /\ (forall txs, length txs = 500%nat -> minedBlockProxy txs = false)
  /\ (forall txs, length txs = 501%nat -> minedBlockProxy txs = true).
Proof.
  assert (H : forall txs, minedBlockProxy txs = true <-> (500 < length txs)%nat)
    by (intro txs; apply Nat.ltb_lt).
  split; [|split; [exact H | split]].
  - intros memPooler txs. unfold minedTxs, Rx.filter.
    rewrite filter_In. now rewrite H.
  - intros txs Hlen. unfold minedBlockProxy. now rewrite Hlen.
  - intros txs Hlen. unfold minedBlockProxy. now rewrite Hlen.
Qed.

Lemma minedTxs_threshold_witness :
  minedTxs [snapshot 500; []] = []
  /\ minedBlockProxy (snapshot 500) = false
  /\ In (snapshot 501) (minedTxs [snapshot 501; []])
  /\ minedBlockProxy (snapshot 501) = true.
Proof.
  destruct minedTxs_threshold as [Hin [_ [H500 H501]]].
  split; [vm_compute; reflexivity|].
  split; [apply H500; vm_compute; reflexivity|].
  split; [|apply H501; vm_compute; reflexivity].
  apply Hin. split.
  - left. vm_compute. reflexivity.
  - vm_compute. lia.
Defined.

End Mined.

(** ** The tail of a quantile *)

Module Quantile.

Lemma filterFrom_threshold {A : Type} (p : A -> nat -> bool) (m : nat)
    (l : list A) (i0 : nat) :
  (forall x i, (i0 <= i < i0 + length l)%nat -> p x i = (m <=? i)%nat) ->
  Js.filterFrom i0 p l = skipn (m - i0) l.
Proof.
  revert i0. induction l as [|x l IH]; intros i0 Hp; simpl.
  - now rewrite skipn_nil.
  - rewrite (Hp x i0) by (simpl; lia).
    rewrite (IH (S i0)) by (intros y i Hi; apply Hp; simpl; lia).
    destruct (m <=? i0)%nat eqn:E.
    + apply Nat.leb_le in E.
      replace (m - i0)%nat with 0%nat by lia.
      replace (m - S i0)%nat with 0%nat by lia. reflexivity.
    + apply Nat.leb_gt in E.
      replace (m - i0)%nat with (S (m - S i0)) by lia. reflexivity.
Qed.

(** An integer is below [x] exactly when it is at most [ceil x - 1]. *)
Lemma Zlt_ceiling (z : Z) (x : Q) :
  inject_Z z < x <-> (z <= Qceiling x - 1)%Z.
Proof.
  split; intro H.
  - assert (Hc : inject_Z z < inject_Z (Qceiling x))
      by (eapply Qlt_le_trans; [exact H | apply Qle_ceiling]).
    rewrite <- Zlt_Qlt in Hc. lia.
  - eapply Qle_lt_trans; [|apply Qceiling_lt].
    now rewrite <- Zle_Qle.
Qed.

Lemma minQuant_test (n i : nat) (q : Q) :
  (i < n)%nat ->
  (ofNat i >? ofNat n * (one - Fin q))%num = (n - tailSize n q <=? i)%nat.
Proof.
  intro Hi. unfold gtb, tailSize, ofNat, one, sub. simpl.
  set (c := Qceiling (inject_Z (Z.of_nat n) * q)).
  assert (Hc : forall z, inject_Z z < inject_Z (Z.of_nat n) * q
                         <-> (z <= c - 1)%Z) by (intro z; apply Zlt_ceiling).
  specialize (Hc (Z.of_nat n - Z.of_nat i)%Z).
  unfold Zminus in Hc at 1. rewrite inject_Z_plus, inject_Z_opp in Hc.
  destruct (n - Z.to_nat (c - 1) <=? i)%nat eqn:E.
  - apply Nat.leb_le in E. qprop.
    assert (Hz : (Z.of_nat n - Z.of_nat i <= c - 1)%Z) by lia.
    apply Hc in Hz. lra.
  - apply Nat.leb_gt in E. qprop.
    destruct (Qlt_le_dec (inject_Z (Z.of_nat n) + - inject_Z (Z.of_nat i))
                         (inject_Z (Z.of_nat n) * q)) as [Hlt|Hle].
    + apply Hc in Hlt. lia.
    + lra.
Qed.

(** [minQuant] keeps the last [ceil (n * q) - 1] entries. *)
Lemma minQuant_lastN {A : Type} (xs : list A) (q : Q) :
  minQuant xs (Fin q) = lastN (tailSize (length xs) q) xs.
Proof.
  unfold minQuant, Js.filteri, lastN.
  rewrite (filterFrom_threshold _ (length xs - tailSize (length xs) q)).
  - now rewrite Nat.sub_0_r.
  - intros x i Hi. apply minQuant_test. lia.
Qed.

Lemma tailSize_le_one (n : nat) (q : Q) :
  inject_Z (Z.of_nat n) * q <= 1 -> tailSize n q = 0%nat.
Proof.
  intro H. unfold tailSize.
  apply Qceiling_resp_le in H.
  change 1 with (inject_Z 1) in H. rewrite Qceiling_Z in H. lia.
Qed.

(** C8, as the code has it.  For every mined-event list of [n]
    transactions, the value published for each quantile [q] is the mean of
    [feeRate] ([NaN] for no entry) over the entries of the list sorted by
    descending [feeRate] whose index exceeds [n * (1 - q)]: exactly its
    last [ceil (n * q) - 1] entries. *)
Theorem summaryFee_tail_mean (mempool : list MempoolTx.t) :
  let x := Js.sort byFeeRateMined mempool in
  let n := length mempool in
  summaryFee mempool
  = map (fun q => (q, Lodash.meanBy MempoolTx.feeRate (lastN (tailSize n q) x)))
        quantiles.
Proof.
  intros x n. unfold summaryFee. apply map_ext. intro q.
  rewrite minQuant_lastN. fold x.
  unfold n, x. now rewrite SortFacts.sort_length.
Qed.

(** C8 as stated fails: for the mined event of 1000 transactions with the
    fee rates 1000, ..., 1 and the quantile 0.4, the published value is
    200, the mean of the last 399 fee rates; the mean of the last
    [ceil (1000 * 0.4) = 400] is 200.5. *)
Lemma summaryFee_not_ceiling_tail :
  let mempool := snapshot 1000 in
  let x := Js.sort byFeeRateMined mempool in
  minedBlockProxy mempool = true
  /\ Qceiling (inject_Z (Z.of_nat (length mempool)) * (4 # 10)) = 400%Z
  /\ exists v,
       lookupQ (4 # 10) (summaryFee mempool) = Some v
       /\ (v === Fin 200)%num = true
       /\ (Lodash.meanBy MempoolTx.feeRate (lastN 400 x) === Fin (401 # 2))%num
          = true
       /\ (v === Lodash.meanBy MempoolTx.feeRate (lastN 400 x))%num = false.
Proof.
  split; [vm_compute; reflexivity|]. split; [vm_compute; reflexivity|].
  eexists. split; [vm_compute; reflexivity|].
  split; [vm_compute; reflexivity|]. split; vm_compute; reflexivity.
Qed.

(** C10.  When [n * q <= 1], no index of a list of [n] entries exceeds
    [n * (1 - q)]: [minQuant] returns the empty list, whose mean is [NaN],
    and for a quantile [q] of the summary the published value is [NaN]. *)
Theorem minQuant_empty_tail (mempool : list MempoolTx.t) (q : Q) :
  inject_Z (Z.of_nat (length mempool)) * q <= 1 ->
  let x := Js.sort byFeeRateMined mempool in
  (forall i, (i < length x)%nat ->
             (ofNat i >? ofNat (length x) * (one - Fin q))%num = false)
  /\ minQuant x (Fin q) = []
  /\ Lodash.meanBy MempoolTx.feeRate (minQuant x (Fin q)) = NaN
  /\ (In q quantiles -> In (q, NaN) (summaryFee mempool)).
Proof.
  intros H x.
  assert (Hlen : length x = length mempool) by apply SortFacts.sort_length.
  assert (Hk : tailSize (length x) q = 0%nat)
    by (rewrite Hlen; now apply tailSize_le_one).
  assert (Hempty : minQuant x (Fin q) = []).
  { rewrite minQuant_lastN, Hk. unfold lastN.
    rewrite Nat.sub_0_r. apply skipn_all. }
  split; [|split; [exact Hempty | split]].
  - intros i Hi. rewrite minQuant_test by assumption.
    rewrite Hk. apply Nat.leb_gt. lia.
  - now rewrite Hempty.
  - intro Hq. unfold summaryFee. fold x.
    apply in_map_iff. exists q. split; [|assumption].
    now rewrite Hempty.
Qed.

Lemma minQuant_empty_tail_witness :
  let mempool := snapshot 1000 in
  minedBlockProxy mempool = true
  /\ lookupQ (1 # 1000) (summaryFee mempool) = Some NaN
  /\ In (1 # 1000, NaN) (summaryFee mempool).
Proof.
  split; [vm_compute; reflexivity|]. split; [vm_compute; reflexivity|].
  apply (minQuant_empty_tail (snapshot 1000) (1 # 1000)).
  - vm_compute. discriminate.
  - simpl. tauto.
Defined.

End Quantile.

(** ** Acceleration *)

Module Acceleration.

(** What [scan] passes to the callback as [v0] is the value it emitted
    last, not the previous velocity. *)
Lemma acceleration_unfold (v1 v2 v3 : number) :
  acceleration [v1; v2; v3] = [v1; v2 - v1; v3 - (v2 - v1)]%num.
Proof. reflexivity. Qed.

(** C1.  For the velocities 1, 3, 6 the acceleration stream emits 1, 2, 4;
    the first differences are 1, 2, 3. *)
Theorem acceleration_third_emission :
  acceleration [Fin 1; Fin 3; Fin 6] = [Fin 1; Fin 2; Fin 4]
  /\ (Fin 6 - Fin 3)%num = Fin 3
  /\ acceleration [Fin 1; Fin 3; Fin 6]
     <> [Fin 1; (Fin 3 - Fin 1)%num; (Fin 6 - Fin 3)%num].
Proof.
  split; [reflexivity|]. split; [reflexivity|]. discriminate.
Qed.

End Acceleration.

(** ** The recommendation *)

Module Recommend.

Lemma reduceFrom_feeDiffStep xs i rest acc :
  Js.reduceFrom feeDiffStep xs i rest acc = acc ++ entriesFrom xs i rest.
Proof.
  revert i acc. induction rest as [|fee rest IH]; intros i acc; simpl.
  - now rewrite app_nil_r.
  - rewrite IH. unfold feeDiffStep. now rewrite <- app_assoc.
Qed.

Lemma feeDiffEntry_feeRate fee i xs :
  FeeDiff.feeRate (feeDiffEntry fee i xs) = Fee.feeRate fee.
Proof. unfold feeDiffEntry. now destruct (0 <? i)%nat. Qed.

Lemma entriesFrom_feeRate (P : number -> Prop) xs i rest :
  Forall (fun fee => P (Fee.feeRate fee)) rest ->
  Forall (fun e => P (FeeDiff.feeRate e)) (entriesFrom xs i rest).
Proof.
  intro H. revert i. induction H as [|fee rest Hf Hr IH]; intro i; simpl.
  - constructor.
  - constructor; [now rewrite feeDiffEntry_feeRate | apply IH].
Qed.

(** The entries a fee curve is reduced to: non-positive slopes over the
    fee rates of the estimates, the first of slope 0. *)
Lemma feeDiff_shape (P : number -> Prop) (x : list Fee.t) :
  Forall (fun fee => P (Fee.feeRate fee)) x ->
  Forall (fun e => (FeeDiff.diff e <=? zero)%num = true
                   /\ P (FeeDiff.feeRate e)) (feeDiff x)
  /\ match feeDiff x with
     | [] => True
     | e :: _ => FeeDiff.diff e = zero
     end.
Proof.
  intro H. unfold feeDiff, Js.reduce.
  rewrite reduceFrom_feeDiffStep. simpl. split.
  - apply Forall_forall. intros e He. apply filter_In in He.
    destruct He as [He Hd]. split; [exact Hd|].
    pose proof (entriesFrom_feeRate P x 0 x H) as HP.
    rewrite Forall_forall in HP. now apply HP.
  - destruct x as [|fee x]; simpl; [exact I|]. reflexivity.
Qed.

(** A strictly negative slope over a positive fee rate is below every
    positive threshold. *)
Lemma negative_saving_rejected (d p m : number) :
  (d <=? zero)%num = true -> (d === zero)%num = false ->
  (zero <? p)%num = true -> (zero <? m)%num = true ->
  (d / p >=? m)%num = false.
Proof.
  unfold geb, zero.
  destruct d as [| | |d], p as [| | |p], m as [| | |m];
    simpl; try discriminate; try reflexivity; intros Hd Hz Hp Hm; qprop.
  all: try (destruct (Qlt_bool p 0) eqn:E; qprop; [lra | reflexivity]).
  all: try (destruct (Qeq_bool p 0) eqn:E; qprop; [lra|]; simpl; qprop).
  all: try assumption; try reflexivity.
  assert (Hi : 0 < / p) by now apply Qinv_lt_0_compat.
  unfold Qdiv. nra.
Qed.

Lemma negative_not_zero (d : number) :
  (d <? zero)%num = true -> (d === zero)%num = false.
Proof.
  unfold zero. destruct d as [| | |d]; simpl; try discriminate; try reflexivity.
  intro H. qprop. lra.
Qed.

Section Marking.
Variable minSavingsRate : number.
Hypothesis threshold_positive : (zero <? minSavingsRate)%num = true.

(** A retained entry of the fee curve: a non-positive slope over a
  positive fee rate. *)
Let retained (e : FeeDiff.t) : Prop :=
(FeeDiff.diff e <=? zero)%num = true /\ (zero <? FeeDiff.feeRate e)%num = true.

(** What marking proves of an entry: it is valid for a slope of 0 only. *)
Let zeroIfValid (e : Recommendation.t) : Prop :=
Recommendation.valid e = true -> (Recommendation.diff e === zero)%num = true.

Lemma minDiffStep_marks (pre rest : list FeeDiff.t) (fee : FeeDiff.t)
  (c : number) (acc : list Recommendation.t) :
Forall retained (pre ++ fee :: rest) ->
(pre = [] -> FeeDiff.diff fee = zero) ->
exists v,
  minDiffStep minSavingsRate (Some (c, acc)) fee (length pre)
    (pre ++ fee :: rest)
  = Some ((c + FeeDiff.diff fee)%num,
          acc ++ [withCumDiff fee (c + FeeDiff.diff fee)%num v])
  /\ (v = true -> (FeeDiff.diff fee === zero)%num = true).
Proof.
intros Hall Hfirst. unfold minDiffStep.
destruct (FeeDiff.diff fee === zero)%num eqn:Ez.
- exists true. split; [reflexivity | trivial].
- destruct pre as [|p0 pre'] eqn:Epre.
  + rewrite Hfirst in Ez by reflexivity. discriminate Ez.
  + rewrite <- Epre in *.
    assert (Hlen : length pre = S (length pre')) by now rewrite Epre.
    rewrite Hlen.
    destruct (nth_error (pre ++ fee :: rest) (length pre')) as [prev|] eqn:En.
    * assert (Hprev : retained prev).
      { rewrite Forall_forall in Hall. apply Hall.
        eapply nth_error_In. exact En. }
      assert (Hfee : retained fee).
      { rewrite Forall_forall in Hall. apply Hall.
        apply in_or_app. right. now left. }
      destruct Hprev as [_ Hp]. destruct Hfee as [Hd _].
      rewrite (negative_saving_rejected _ _ _ Hd Ez Hp threshold_positive).
      exists false. split; [reflexivity | discriminate].
    * apply nth_error_None in En. rewrite length_app in En. lia.
Qed.

Lemma reduceFrom_marks (xs : list FeeDiff.t) :
Forall retained xs ->
forall rest pre c acc,
  xs = pre ++ rest ->
  (pre = [] -> match rest with [] => True | e :: _ => FeeDiff.diff e = zero end) ->
  exists c' new,
    Js.reduceFrom (minDiffStep minSavingsRate) xs (length pre) rest
      (Some (c, acc))
    = Some (c', acc ++ new)
    /\ Forall zeroIfValid new.
Proof.
intros Hall rest. induction rest as [|fee rest IH]; intros pre c acc Hxs Hfirst.
- exists c, []. simpl. rewrite app_nil_r. split; [reflexivity | constructor].
- subst xs. cbn [Js.reduceFrom].
  destruct (minDiffStep_marks pre rest fee c acc Hall Hfirst) as [v [Hstep Hv]].
  rewrite Hstep.
  destruct (IH (pre ++ [fee]) (c + FeeDiff.diff fee)%num
               (acc ++ [withCumDiff fee (c + FeeDiff.diff fee)%num v]))
    as [c' [new [Hred Hnew]]].
  + now rewrite <- app_assoc.
  + intro Hnil. now apply app_eq_nil in Hnil.
  + rewrite length_app in Hred. simpl in Hred.
    rewrite Nat.add_1_r in Hred.
    exists c', (withCumDiff fee (c + FeeDiff.diff fee)%num v :: new).
    split.
    * rewrite Hred. now rewrite <- app_assoc.
    * constructor; [exact Hv | exact Hnew].
Qed.

Lemma mark_zeroIfValid (x : list Fee.t) :
Forall (fun fee => (zero <? Fee.feeRate fee)%num = true) x ->
exists marked,
  mark minSavingsRate (feeDiff x) = Some marked
  /\ Forall zeroIfValid marked.
Proof.
intro Hx.
destruct (feeDiff_shape (fun r => (zero <? r)%num = true) x Hx) as [Hall Hhd].
destruct (reduceFrom_marks (feeDiff x) Hall (feeDiff x) [] zero [])
  as [c' [new [Hred Hnew]]].
- reflexivity.
- intros _. exact Hhd.
- exists new. unfold mark, Js.reduce. simpl in Hred. rewrite Hred.
  split; [reflexivity | exact Hnew].
Qed.
End Marking.

(** C3.  For positive fee rates and a positive [minSavingsRate], [minDiff$]
    emits a list (the callback does not throw); every entry of strictly
    negative [diff] is marked [valid: false], and every entry of the
    emitted list has [diff] equal to 0. *)
Theorem minDiff_publishes_zero_diff_only (minSavingsRate : number)
    (x : list Fee.t) :
  (zero <? minSavingsRate)%num = true ->
  Forall (fun fee => (zero <? Fee.feeRate fee)%num = true) x ->
  exists marked out,
    mark minSavingsRate (feeDiff x) = Some marked
    /\ minDiff minSavingsRate x = Some out
    /\ Forall (fun e => (Recommendation.diff e <? zero)%num = true ->
                        Recommendation.valid e = false) marked
    /\ Forall (fun e => (Recommendation.diff e === zero)%num = true) out.
Proof.
  intros Hm Hx.
  destruct (mark_zeroIfValid minSavingsRate Hm x Hx) as [marked [Hmark Hvalid]].
  exists marked, (Js.sort byCost (List.filter Recommendation.valid marked)).
  split; [exact Hmark|]. split; [|split].
  - unfold minDiff, rank. now rewrite Hmark.
  - eapply Forall_impl; [|exact Hvalid].
    intros e He Hneg. simpl in He.
    destruct (Recommendation.valid e); [|reflexivity].
    rewrite (negative_not_zero _ Hneg) in He.
    specialize (He eq_refl). discriminate He.
  - apply Forall_forall. intros e He.
    apply SortFacts.sort_In in He. apply filter_In in He.
    destruct He as [He Hv].
    rewrite Forall_forall in Hvalid. now apply Hvalid.
Qed.

Lemma minDiff_publishes_zero_diff_only_witness :
  exists marked out,
    mark (Fin (2 # 100)) (feeDiff scenario5) = Some marked
    /\ minDiff (Fin (2 # 100)) scenario5 = Some out
    /\ Forall (fun e => (Recommendation.diff e <? zero)%num = true ->
                        Recommendation.valid e = false) marked
    /\ Forall (fun e => (Recommendation.diff e === zero)%num = true) out.
Proof.
  apply (minDiff_publishes_zero_diff_only (Fin (2 # 100)) scenario5).
  - reflexivity.
  - repeat constructor.
Defined.

(** C2, as the code has it.  For the fee rates 100, 95, 94, 94 and
    [minSavingsRate = 0.02] the slopes are 0, -5, -1, 0 and the four
    entries are retained; the entry of target 3 is marked invalid, the
    entries of targets 1 and 4, of slope 0, are marked valid; the emitted
    list has the targets 1 and 4 and has not the target 3. *)
Theorem scenario5_recommendation :
  map FeeDiff.diff (feeDiff scenario5) = [Fin 0; Fin (-5); Fin (-1); Fin 0]
  /\ exists marked out,
       mark (Fin (2 # 100)) (feeDiff scenario5) = Some marked
       /\ minDiff (Fin (2 # 100)) scenario5 = Some out
       /\ validOf 3 marked = Some false
       /\ validOf 1 marked = Some true
       /\ validOf 4 marked = Some true
       /\ In 1%nat (map Recommendation.targetBlock out)
       /\ In 4%nat (map Recommendation.targetBlock out)
       /\ ~ In 3%nat (map Recommendation.targetBlock out).
Proof.
  split; [reflexivity|].
  eexists. eexists. split; [reflexivity|]. split; [reflexivity|].
  split; [reflexivity|]. split; [reflexivity|]. split; [reflexivity|].
  simpl. split; [tauto|]. split; [tauto|].
  intros [H|[H|[]]]; discriminate H.
Qed.

(** C2 as stated fails: the entry of target 2 is marked invalid, since
    [-5 / 100 >= 0.02] is false, the entry of target 1 is valid, and the
    emitted list has the targets 1 and 4, not the targets 2 and 4. *)
Lemma scenario5_not_targets_2_4 :
  exists marked out,
    mark (Fin (2 # 100)) (feeDiff scenario5) = Some marked
    /\ minDiff (Fin (2 # 100)) scenario5 = Some out
    /\ validOf 2 marked = Some false
    /\ map Recommendation.targetBlock out = [1; 4]%nat
    /\ ~ Permutation (map Recommendation.targetBlock out) [2; 4]%nat.
Proof.
  eexists. eexists. split; [reflexivity|]. split; [reflexivity|].
  split; [reflexivity|]. split; [reflexivity|].
  simpl. intro H.
  apply (Permutation_in 1%nat) in H; [|now left].
  destruct H as [H|[H|[]]]; discriminate H.
Qed.

End Recommend.

(** * Further properties *)

(** ** The packing, further *)

Module PackMore.

Lemma pack_app bes c tb n l1 l2 :
  pack bes c tb n (l1 ++ l2)
  = pack bes c tb n l1
    ++ (let '(c', tb', n') := packEnd bes c tb n l1 in pack bes c' tb' n' l2).
Proof.
  revert c tb n. induction l1 as [|tx l1 IH]; intros c tb n.
  - reflexivity.
  - cbn [app pack packEnd]. now rewrite IH.
Qed.

Lemma pack_length bes c tb n l : length (pack bes c tb n l) = length l.
Proof.
  rewrite <- (PackFacts.unpack_pack bes c tb n l) at 2.
  now rewrite length_map.
Qed.

Lemma pack_NaN bes tb n l :
  Forall (fun t => MempoolTx.cumSize t = NaN /\ MempoolTx.targetBlock t = tb)
         (pack bes NaN tb n l).
Proof.
  induction l as [|tx l IH]; simpl; constructor.
  - split; reflexivity.
  - exact IH.
Qed.

Lemma app_same_length {A : Type} (a b c d : list A) :
  length a = length c -> a ++ b = c ++ d -> b = d.
Proof.
  revert c. induction a as [|x a IH]; intros [|y c] Hlen Heq;
    simpl in *; try discriminate.
  - exact Heq.
  - injection Heq as _ Heq. apply (IH c); [lia | exact Heq].
Qed.

Lemma add_NaN_r (x : number) : (x + NaN)%num = NaN.
Proof. now destruct x. Qed.

(** X1.  [sortByFee] returns the objects built from the entries of the
    mapping, each one once, whatever the fields of the entries: no entry is
    skipped. *)
Theorem sortByFee_keeps_every_entry (blockEffectiveSize : Q)
    (txs : RawMempool) :
  Permutation (map unpack (sortByFee blockEffectiveSize txs)) (map project txs)
  /\ Permutation (map MempoolTx.txid (sortByFee blockEffectiveSize txs))
                 (map fst txs)
  /\ length (sortByFee blockEffectiveSize txs) = length txs.
Proof.
  assert (H : Permutation (map unpack (sortByFee blockEffectiveSize txs))
                          (map project txs)).
  { rewrite SortByFee.unpack_sortByFee. apply SortFacts.sort_perm. }
  split; [exact H|]. split.
  - apply (Permutation_map FeeTx.txid) in H.
    rewrite !map_map in H. simpl in H.
    erewrite (map_ext (fun x => FeeTx.txid (project x)) fst) in H;
      [exact H | now intros [k e]].
  - apply Permutation_length in H. now rewrite !length_map in H.
Qed.

(** X2.  When every size is a number, the target block of a packed
    transaction is the one of its predecessor (1 for the first) plus one if
    its [cumSize] exceeds that target block times [blockEffectiveSize], and
    is the same if it does not. *)
Theorem sortByFee_crossings (blockEffectiveSize : Q) (txs : RawMempool) :
  Forall (fun kv => Raw.size (snd kv) <> None) txs ->
  crossings blockEffectiveSize 1 (sortByFee blockEffectiveSize txs).
Proof.
  intro Hsize.
  assert (Hl : Forall (fun t => FeeTx.size t <> None)
                      (Js.sort byFeeRate (map project txs))).
  { apply Forall_forall. intros t Ht. apply SortFacts.sort_In in Ht.
    apply in_map_iff in Ht. destruct Ht as [[k e] [<- Hin]].
    rewrite Forall_forall in Hsize. exact (Hsize _ Hin). }
  unfold sortByFee, sortByFeeFrom, zero.
  generalize 0 as c. generalize 1%nat as n.
  induction Hl as [|tx l Htx Hl IH]; intros n c; simpl; [exact I|].
  destruct (FeeTx.size tx) as [s|]; [|congruence]. simpl.
  destruct (Fin (c + s) >? Fin (inject_Z (Z.of_nat n) * blockEffectiveSize))%num
    eqn:E.
  - split; [left; split; [exact E | simpl; lia]|].
    simpl. replace (n + 1)%nat with (S n) by lia. apply IH.
  - split; [|apply IH].
    right. split; [|reflexivity].
    unfold gtb, ofNat in *. simpl in *. qprop. exact E.
Qed.

Lemma sortByFee_crossings_witness :
  crossings 1000000 1 (sortByFee 1000000 boundary).
Proof.
  apply (sortByFee_crossings 1000000 boundary).
  repeat constructor; discriminate.
Defined.

(** What packing from the position [c] and the target block [n] gives,
    for sizes that are non-negative numbers. *)
Lemma pack_bounds (blockEffectiveSize : Q) (l : list FeeTx.t) :
  Forall (fun t => nonNegative (FeeTx.size t)) l ->
  forall n c,
    Forall (fun tx =>
              (n <= MempoolTx.targetBlock tx)%nat
              /\ (exists d, MempoolTx.cumSize tx = Fin d /\ c <= d)
              /\ ((n < MempoolTx.targetBlock tx)%nat ->
                  (ofNat (MempoolTx.targetBlock tx - 1) * Fin blockEffectiveSize
                   <? MempoolTx.cumSize tx)%num = true))
           (pack blockEffectiveSize (Fin c) n n l).
Proof.
  induction 1 as [|tx l [s [Hs Hpos]] Hl IH]; intros n c; simpl;
    [constructor|].
  rewrite Hs. simpl.
  destruct (Fin (c + s) >? Fin (inject_Z (Z.of_nat n) * blockEffectiveSize))%num
    eqn:E.
  - constructor.
    + simpl. split; [lia|]. split; [exists (c + s); split; [reflexivity|lra]|].
      intros _. replace (n + 1 - 1)%nat with n by lia. exact E.
    + eapply Forall_impl; [|apply (IH (n + 1)%nat (c + s))].
      intros t [Hn [[d [Hd Hcd]] Hb]]. split; [lia|].
      split; [exists d; split; [exact Hd | lra]|].
      intros Hlt.
      destruct (Nat.eq_dec (MempoolTx.targetBlock t) (n + 1)) as [Heq|Hne].
      * rewrite Heq, Hd. replace (n + 1 - 1)%nat with n by lia.
        unfold gtb, ofNat in *. simpl in *. qprop. lra.
      * apply Hb. lia.
  - constructor.
    + simpl. split; [lia|]. split; [exists (c + s); split; [reflexivity|lra]|].
      intros Hlt. lia.
    + eapply Forall_impl; [|apply (IH n (c + s))].
      intros t [Hn [[d [Hd Hcd]] Hb]]. split; [exact Hn|].
      split; [exists d; split; [exact Hd | lra] | exact Hb].
Qed.

Lemma sorted_sizes (txs : RawMempool) :
  Forall (fun kv => nonNegative (Raw.size (snd kv))) txs ->
  Forall (fun t => nonNegative (FeeTx.size t))
         (Js.sort byFeeRate (map project txs)).
Proof.
  intro Hsize. apply Forall_forall. intros t Ht. apply SortFacts.sort_In in Ht.
  apply in_map_iff in Ht. destruct Ht as [[k e] [<- Hin]].
  rewrite Forall_forall in Hsize. exact (Hsize _ Hin).
Qed.

(** Position and target block grow together along a packing. *)
Lemma pack_ordered (blockEffectiveSize : Q) (l : list FeeTx.t) :
  Forall (fun t => nonNegative (FeeTx.size t)) l ->
  forall n c,
    StronglySorted
      (fun a b => (MempoolTx.targetBlock a <= MempoolTx.targetBlock b)%nat
                  /\ (MempoolTx.cumSize a <=? MempoolTx.cumSize b)%num = true)
      (pack blockEffectiveSize (Fin c) n n l).
Proof.
  induction 1 as [|tx l [s [Hs Hpos]] Hl IH]; intros n c; simpl;
    [constructor|].
  rewrite Hs. simpl.
  destruct (Fin (c + s) >? Fin (inject_Z (Z.of_nat n) * blockEffectiveSize))%num.
  - constructor; [apply IH|].
    eapply Forall_impl; [|apply (pack_bounds blockEffectiveSize l Hl)].
    intros t [Hn [[d [Hd Hcd]] _]]. simpl. split; [exact Hn|].
    rewrite Hd. simpl. qprop. exact Hcd.
  - constructor; [apply IH|].
    eapply Forall_impl; [|apply (pack_bounds blockEffectiveSize l Hl)].
    intros t [Hn [[d [Hd Hcd]] _]]. simpl. split; [exact Hn|].
    rewrite Hd. simpl. qprop. exact Hcd.
Qed.

(** X3.  When the sizes are non-negative numbers, a transaction packed in
    the target block [t >= 2] has a [cumSize] above [(t - 1) *
    blockEffectiveSize]. *)
Theorem sortByFee_block_lower_bound (blockEffectiveSize : Q)
    (txs : RawMempool) :
  Forall (fun kv => nonNegative (Raw.size (snd kv))) txs ->
  Forall (fun tx =>
            (2 <= MempoolTx.targetBlock tx)%nat ->
            (ofNat (MempoolTx.targetBlock tx - 1) * Fin blockEffectiveSize
             <? MempoolTx.cumSize tx)%num = true)
         (sortByFee blockEffectiveSize txs).
Proof.
  intro Hsize. unfold sortByFee, sortByFeeFrom, zero.
  eapply Forall_impl;
    [|apply (pack_bounds blockEffectiveSize _ (sorted_sizes txs Hsize) 1%nat 0)].
  intros tx [_ [_ Hb]] H2. apply Hb. lia.
Qed.

Lemma sortByFee_block_lower_bound_witness :
  Forall (fun tx =>
            (2 <= MempoolTx.targetBlock tx)%nat ->
            (ofNat (MempoolTx.targetBlock tx - 1) * Fin 1000000
             <? MempoolTx.cumSize tx)%num = true)
         (sortByFee 1000000 boundary).
Proof.
  apply (sortByFee_block_lower_bound 1000000 boundary).
  repeat constructor; simpl; eexists; (split; [reflexivity | lra]).
Defined.

(** X4.  From a transaction whose [size] is undefined on, every [cumSize]
    of the packed sequence is [NaN] and the target block does not change
    any more. *)
Theorem sortByFee_undefined_size (blockEffectiveSize : Q) (txs : RawMempool)
    (l1 l2 : list MempoolTx.t) (tx : MempoolTx.t) :
  sortByFee blockEffectiveSize txs = l1 ++ tx :: l2 ->
  MempoolTx.size tx = None ->
  Forall (fun t => MempoolTx.cumSize t = NaN
                   /\ MempoolTx.targetBlock t = MempoolTx.targetBlock tx)
         (tx :: l2).
Proof.
  intros Hout Hsize.
  pose proof (SortByFee.unpack_sortByFee blockEffectiveSize txs) as Hun.
  rewrite Hout in Hun. rewrite map_app in Hun. simpl in Hun.
  unfold sortByFee, sortByFeeFrom in Hout.
  rewrite <- Hun in Hout. rewrite pack_app in Hout.
  apply app_same_length in Hout.
  - destruct (packEnd blockEffectiveSize zero 1 1 (map unpack l1))
      as [[c tb] n].
    simpl in Hout. rewrite Hsize in Hout. simpl in Hout.
    rewrite add_NaN_r in Hout.
    change (NaN >? ofNat n * Fin blockEffectiveSize)%num with false in Hout.
    injection Hout as Htx Hl2.
    constructor.
    + rewrite <- Htx. split; reflexivity.
    + rewrite <- Hl2, <- Htx. simpl. apply pack_NaN.
  - now rewrite pack_length, length_map.
Qed.

Lemma sortByFee_undefined_size_witness :
  exists a tx l2,
    sortByFee 1000000 sizeless = [a] ++ tx :: l2
    /\ MempoolTx.txid tx = "b"%string
    /\ length l2 = 1%nat
    /\ Forall (fun t => MempoolTx.cumSize t = NaN
                        /\ MempoolTx.targetBlock t = MempoolTx.targetBlock tx)
              (tx :: l2).
Proof.
  eexists. eexists. eexists.
  split; [vm_compute; reflexivity|].
  split; [reflexivity|]. split; [reflexivity|].
  eapply (sortByFee_undefined_size 1000000 sizeless [_]).
  - vm_compute. reflexivity.
  - reflexivity.
Defined.

End PackMore.

(** ** The differences of two snapshots *)

Module Differ.

Lemma difference_txid (xs ys : list MempoolTx.t) (id : string) :
  txidIn (differenceByTxid xs ys) id <-> txidIn xs id /\ ~ txidIn ys id.
Proof.
  unfold txidIn, differenceByTxid. rewrite !in_map_iff. split.
  - intros [x [Hid Hx]]. apply filter_In in Hx. destruct Hx as [Hx Hno].
    split; [now exists x|].
    intros [y [Hy Hin]]. apply negb_true_iff in Hno.
    assert (Hex : existsb (fun y => String.eqb (MempoolTx.txid x)
                                      (MempoolTx.txid y)) ys = true).
    { apply existsb_exists. exists y. split; [exact Hin|].
      apply String.eqb_eq. congruence. }
    congruence.
  - intros [[x [Hid Hx]] Hno]. exists x. split; [exact Hid|].
    apply filter_In. split; [exact Hx|].
    apply negb_true_iff. apply not_true_is_false. intro Hex.
    apply existsb_exists in Hex. destruct Hex as [y [Hin Heq]].
    apply String.eqb_eq in Heq. apply Hno.
    exists y. split; [congruence | exact Hin].
Qed.

Lemma txidIn_dec (xs : list MempoolTx.t) (id : string) :
  txidIn xs id \/ ~ txidIn xs id.
Proof.
  unfold txidIn. destruct (in_dec string_dec id (map MempoolTx.txid xs));
    [now left | now right].
Qed.

(** X5.  For two snapshots [s0] and [s1], with the added transactions
    [s1 \ s0] and the removed ones [s0 \ s1] by [txid]: the identifiers of
    [s1] are those of the added ones and those common to both snapshots,
    the identifiers of [s0] are those of the removed ones and the common
    ones, and no identifier is both added and removed. *)
Theorem difference_round_trip (s0 s1 : list MempoolTx.t) :
  let added := differenceByTxid s1 s0 in
  let removed := differenceByTxid s0 s1 in
  (forall id, txidIn s1 id <-> txidIn added id \/ (txidIn s0 id /\ txidIn s1 id))
  /\ (forall id,
         txidIn s0 id <-> txidIn removed id \/ (txidIn s0 id /\ txidIn s1 id))
  /\ (forall id, ~ (txidIn added id /\ txidIn removed id)).
Proof.
  intros added removed. unfold added, removed. split; [|split]; intro id.
  - rewrite difference_txid. destruct (txidIn_dec s0 id); tauto.
  - rewrite difference_txid. destruct (txidIn_dec s1 id); tauto.
  - rewrite !difference_txid. tauto.
Qed.

(** X6.  No transaction is removed between two snapshots exactly when
    every identifier of the first one is in the second one; in particular a
    snapshot that is followed by itself gives no added and no removed
    transaction, and no mined event. *)
Theorem nothing_removed_iff (s0 s1 : list MempoolTx.t) :
  (differenceByTxid s0 s1 = [] <-> (forall id, txidIn s0 id -> txidIn s1 id))
  /\ removedTxsShared [s0; s0] = [[]]
  /\ addedTxs [s0; s0] = []
  /\ minedTxs [s0; s0] = [].
Proof.
  assert (H : forall a b, differenceByTxid a b = []
                          <-> (forall id, txidIn a id -> txidIn b id)).
  { intros a b. split.
    - intros Hnil id Hid. destruct (txidIn_dec b id) as [|Hno]; [assumption|].
      assert (Hd : txidIn (differenceByTxid a b) id)
        by (apply difference_txid; tauto).
      rewrite Hnil in Hd. destruct Hd.
    - intro Hsub. destruct (differenceByTxid a b) as [|x l] eqn:E;
        [reflexivity|].
      assert (Hd : txidIn (differenceByTxid a b) (MempoolTx.txid x))
        by (rewrite E; now left).
      apply difference_txid in Hd. destruct Hd as [Ha Hb].
      now apply Hsub in Ha. }
  assert (Hself : differenceByTxid s0 s0 = []) by (apply H; auto).
  split; [apply H|].
  unfold minedTxs, removedTxsShared, addedTxs, last2Mempools. simpl.
  rewrite Hself. repeat split; reflexivity.
Qed.

Lemma last2Mempools_combine {A : Type} (l : list A) :
  bufferCount2 l = combine l (tl l).
Proof.
  induction l as [|x [|y l] IH]; try reflexivity.
  simpl in *. now rewrite IH.
Qed.

(** [last2Mempools$] is [bufferCount(2, 1)]. *)
Lemma last2Mempools_bufferCount {A : Type} (l : list A) :
  Stream.bufferCount 2 l = map (fun p => [fst p; snd p]) (bufferCount2 l).
Proof.
  induction l as [|x l IH]; [reflexivity|].
  destruct l as [|y l]; [reflexivity|].
  change (Stream.bufferCount 2 (x :: y :: l))
    with ([x; y] :: Stream.bufferCount 2 (y :: l)).
  rewrite IH. reflexivity.
Qed.

(** X7.  [removedTxsShared$] emits one value for each snapshot after the
    first one, the difference of the snapshot before and of that snapshot;
    a mined event is such a difference of more than 500 transactions, all
    of them in the snapshot before and none of them, by [txid], in the new
    one. *)
Theorem removedTxsShared_consecutive (memPooler : list (list MempoolTx.t)) :
  length (removedTxsShared memPooler) = pred (length memPooler)
  /\ (forall k r,
         nth_error (removedTxsShared memPooler) k = Some r
         <-> exists s0 s1,
               nth_error memPooler k = Some s0
               /\ nth_error memPooler (S k) = Some s1
               /\ r = differenceByTxid s0 s1)
  /\ (forall r,
         In r (minedTxs memPooler) ->
         exists k s0 s1,
           nth_error memPooler k = Some s0
           /\ nth_error memPooler (S k) = Some s1
           /\ r = differenceByTxid s0 s1
           /\ (500 < length r <= length s0)%nat
           /\ incl r s0
           /\ (forall id, txidIn r id -> ~ txidIn s1 id)).
Proof.
  assert (Hnth : forall k r,
             nth_error (removedTxsShared memPooler) k = Some r
             <-> exists s0 s1,
                   nth_error memPooler k = Some s0
                   /\ nth_error memPooler (S k) = Some s1
                   /\ r = differenceByTxid s0 s1).
  { unfold removedTxsShared, last2Mempools.
    rewrite last2Mempools_combine.
    induction memPooler as [|s l IH]; intros k r.
    - simpl. split; [destruct k; discriminate|].
      intros [s0 [s1 [H _]]]. destruct k; discriminate.
    - destruct l as [|s' l].
      + simpl. split; [destruct k; discriminate|].
        intros [s0 [s1 [_ [H _]]]]. destruct k; discriminate.
      + destruct k as [|k].
        * simpl. split.
          -- intro H. injection H as <-. now exists s, s'.
          -- intros [s0 [s1 [H0 [H1 ->]]]]. now injection H0 as <-; injection H1 as <-.
        * change (nth_error (map (fun txs => differenceByTxid (fst txs) (snd txs))
                               (combine (s :: s' :: l) (tl (s :: s' :: l)))) (S k))
            with (nth_error (map (fun txs => differenceByTxid (fst txs) (snd txs))
                               (combine (s' :: l) (tl (s' :: l)))) k).
          rewrite IH. reflexivity. }
  split; [|split; [exact Hnth|]].
  - unfold removedTxsShared, last2Mempools. rewrite length_map.
    rewrite last2Mempools_combine, length_combine.
    destruct memPooler as [|s l]; [reflexivity|].
    cbn [tl length pred]. apply Nat.min_r. lia.
  - intros r Hr. unfold minedTxs, Rx.filter in Hr.
    apply filter_In in Hr. destruct Hr as [Hin Hlen].
    apply Nat.ltb_lt in Hlen.
    apply In_nth_error in Hin. destruct Hin as [k Hk].
    apply Hnth in Hk. destruct Hk as [s0 [s1 [H0 [H1 Hr]]]].
    exists k, s0, s1. repeat split; try assumption.
    + rewrite Hr. unfold differenceByTxid. apply filter_length_le.
    + rewrite Hr. intros x Hx. unfold differenceByTxid in Hx.
      now apply filter_In in Hx.
    + intros id Hid. rewrite Hr in Hid. now apply difference_txid in Hid.
Qed.

End Differ.

(** ** The poller *)

Module Poller.

Section Distinct.
Context {A : Type}.
Variable compare : A -> A -> bool.

Lemma distinctFrom_changing (key : A) (l : list A) :
  changing compare (key :: Stream.distinctFrom compare key l).
Proof.
  unfold changing. revert key. induction l as [|x l IH]; intro key; simpl.
  - repeat constructor.
  - destruct (compare key x) eqn:E.
    + apply IH.
    + constructor; [apply IH|]. now constructor.
Qed.

Lemma distinctUntilChanged_changing (l : list A) :
  changing compare (Stream.distinctUntilChanged compare l).
Proof.
  destruct l as [|x l]; [constructor|]. apply distinctFrom_changing.
Qed.
End Distinct.

Section Identity.
Variable isEqual : RawMempool -> RawMempool -> bool.

(** The identities tell the polls that [scan] replaced from those it did
    not: what passes is what [isEqual] does not equate to the value
    held. *)
Lemma distinct_scan (l : list RawMempool) (i j : nat) (a : RawMempool) :
  (i < j)%nat ->
  map snd (Stream.distinctFrom sameObject (i, a)
             (Rx.scanFrom (unlessEqual isEqual) (i, a)
                (combine (seq j (length l)) l)))
  = Stream.distinctFrom isEqual a l.
Proof.
  revert i j a. induction l as [|y l IH]; intros i j a Hij.
  - reflexivity.
  - cbn [length seq combine Rx.scanFrom Stream.distinctFrom].
    assert (Hk : unlessEqual isEqual (i, a) (j, y)
                 = if isEqual a y then (i, a) else (j, y))
      by (unfold unlessEqual; simpl; now destruct (isEqual a y)).
    rewrite Hk. destruct (isEqual a y) eqn:E.
    + unfold sameObject at 1. simpl. rewrite Nat.eqb_refl.
      apply IH. lia.
    + unfold sameObject at 1. simpl.
      replace (i =? j)%nat with false by (symmetry; apply Nat.eqb_neq; lia).
      simpl. f_equal. apply IH. lia.
Qed.
End Identity.

(** X8.  [memPooler$] emits the packing of the first poll and then of each
    poll that [isEqual] does not equate to the poll packed last: two polls
    emitted in a row are never deep-equal, and a poll that is deep-equal to
    the one before it gives no emission. *)
Theorem memPooler_emits_changes (blockEffectiveSize : Q)
    (isEqual : RawMempool -> RawMempool -> bool) (polls : list RawMempool) :
  let emitted := Stream.distinctUntilChanged isEqual polls in
  memPooler blockEffectiveSize isEqual polls
  = map (sortByFee blockEffectiveSize) emitted
  /\ changing isEqual emitted
  /\ (forall a, isEqual a a = true ->
                memPooler blockEffectiveSize isEqual [a; a]
                = [sortByFee blockEffectiveSize a]).
Proof.
  intro emitted.
  assert (H : forall l,
             memPooler blockEffectiveSize isEqual l
             = map (sortByFee blockEffectiveSize)
                   (Stream.distinctUntilChanged isEqual l)).
  { intro l. unfold memPooler, polled.
    rewrite <- (map_map snd (sortByFee blockEffectiveSize)). f_equal.
    destruct l as [|a l]; [reflexivity|].
    simpl. f_equal. apply distinct_scan. lia. }
  split; [apply H|]. split.
  - apply distinctUntilChanged_changing.
  - intros a Ha. rewrite H. simpl. now rewrite Ha.
Qed.

End Poller.

(** ** The summary of a mined block, further *)

Module SummaryFacts.

Section Extremum.
Context {A : Type}.
Variable iteratee : A -> number.

Lemma leb_lt_false (a b c : number) :
  (a <=? c)%num = false -> (b <? c)%num = true -> (a <=? b)%num = false.
Proof.
  destruct a as [| | |a], b as [| | |b], c as [| | |c];
    simpl; try discriminate; try reflexivity.
  intros H1 H2. qprop. lra.
Qed.

Lemma ltb_lt_false (a b c : number) :
  (a <? c)%num = false -> (b <? c)%num = true -> (a <=? b)%num = false.
Proof.
  destruct a as [| | |a], b as [| | |b], c as [| | |c];
    simpl; try discriminate; try reflexivity.
  intros H1 H2. qprop. lra.
Qed.

Lemma ltb_irrefl (a : number) : (a <? a)%num = false.
Proof.
  destruct a as [| | |a]; simpl; try reflexivity. qprop. lra.
Qed.

Lemma extremumStep_keeps (seen : list A) (st : option (number * A)) (x : A) :
  extremumOf iteratee seen st ->
  extremumOf iteratee (seen ++ [x]) (LodashMore.extremumStep iteratee st x).
Proof.
  unfold LodashMore.extremumStep. destruct st as [[c r]|]; simpl.
  - intros [Hc [Hn [before [after [Hseen [Hb Ha]]]]]].
    destruct (iteratee x <? c)%num eqn:E; simpl.
    + split; [reflexivity|]. split.
      * intro Hx. rewrite Hx in E. discriminate.
      * exists seen, []. split; [reflexivity|]. split; [|constructor].
        rewrite Hseen. apply Forall_app. split; [|constructor].
        -- eapply Forall_impl; [|exact Hb]. intros y Hy. simpl in Hy.
           exact (leb_lt_false _ _ _ Hy E).
        -- apply (ltb_lt_false _ _ c); [|exact E].
           rewrite <- Hc. apply ltb_irrefl.
        -- eapply Forall_impl; [|exact Ha]. intros y Hy. simpl in Hy.
           exact (ltb_lt_false _ _ _ Hy E).
    + split; [exact Hc|]. split; [exact Hn|].
      exists before, (after ++ [x]). split; [|split].
      * rewrite Hseen. now rewrite <- app_assoc.
      * exact Hb.
      * apply Forall_app. split; [exact Ha|]. now repeat constructor.
  - intro Hall. destruct (iteratee x) as [| | |q] eqn:Ex; simpl.
    + apply Forall_app. split; [exact Hall|]. now repeat constructor.
    + split; [now rewrite Ex|]. split; [discriminate|].
      exists seen, []. split; [reflexivity|]. split; [|constructor].
      eapply Forall_impl; [|exact Hall]. intros y ->. reflexivity.
    + split; [now rewrite Ex|]. split; [discriminate|].
      exists seen, []. split; [reflexivity|]. split; [|constructor].
      eapply Forall_impl; [|exact Hall]. intros y ->. reflexivity.
    + split; [now rewrite Ex|]. split; [discriminate|].
      exists seen, []. split; [reflexivity|]. split; [|constructor].
      eapply Forall_impl; [|exact Hall]. intros y ->. reflexivity.
Qed.

Lemma fold_extremum (l seen : list A) (st : option (number * A)) :
  extremumOf iteratee seen st ->
  extremumOf iteratee (seen ++ l) (fold_left (LodashMore.extremumStep iteratee) l st).
Proof.
  revert seen st. induction l as [|x l IH]; intros seen st H; simpl.
  - now rewrite app_nil_r.
  - replace (seen ++ x :: l) with ((seen ++ [x]) ++ l)
      by (now rewrite <- app_assoc).
    apply IH. now apply extremumStep_keeps.
Qed.

Lemma leb_false_ltb (a b : number) :
  (a <=? b)%num = false -> (a <? b)%num = false.
Proof.
  destruct a as [| | |a], b as [| | |b];
    simpl; try discriminate; try reflexivity.
  intro H. qprop. lra.
Qed.

(** What [minBy] returns: nothing when every key is [NaN] (so for an empty
    array), else the first of the elements whose key is a number that no
    key is below. *)
Lemma minBy_first (l : list A) :
  match LodashMore.minBy iteratee l with
  | None => Forall (fun y => iteratee y = NaN) l
  | Some m =>
      iteratee m <> NaN
      /\ exists before after,
           l = before ++ m :: after
           /\ Forall (fun y => (iteratee y <=? iteratee m)%num = false) before
           /\ Forall (fun y => (iteratee y <? iteratee m)%num = false) after
  end.
Proof.
  unfold LodashMore.minBy.
  pose proof (fold_extremum l [] None (Forall_nil _)) as H.
  simpl in H.
  destruct (fold_left (LodashMore.extremumStep iteratee) l None) as [[c r]|];
    simpl in *.
  - destruct H as [-> [Hn H]]. split; assumption.
  - exact H.
Qed.

Lemma minBy_spec (l : list A) :
  match LodashMore.minBy iteratee l with
  | None => Forall (fun y => iteratee y = NaN) l
  | Some m =>
      In m l /\ iteratee m <> NaN
      /\ Forall (fun y => (iteratee y <? iteratee m)%num = false) l
  end.
Proof.
  pose proof (minBy_first l) as H.
  destruct (LodashMore.minBy iteratee l) as [m|]; [|exact H].
  destruct H as [Hn [before [after [Hl [Hb Ha]]]]].
  split; [rewrite Hl; apply in_or_app; right; now left|].
  split; [exact Hn|].
  rewrite Hl. apply Forall_app. split.
  - eapply Forall_impl; [|exact Hb]. intros y. apply leb_false_ltb.
  - constructor; [apply ltb_irrefl | exact Ha].
Qed.
End Extremum.

(** X9.  In the summary of a mined event, [minFeeTx] is a transaction of
    the event whose fee rate is a number that no fee rate of the event is
    below; when no fee rate is [NaN] it is at most every fee rate of the
    event, and when all are [NaN] it is undefined. *)
Theorem summary_minFeeTx (mempool : list MempoolTx.t) (ibi : number)
    (timestamp : Z) (s : Summary.t) :
  minedTxsSummaryOf mempool ibi timestamp = Some s ->
  match Summary.minFeeTx s with
  | None => Forall (fun y => MempoolTx.feeRate y = NaN) mempool
  | Some m =>
      In m mempool /\ MempoolTx.feeRate m <> NaN
      /\ Forall (fun y => (MempoolTx.feeRate y <? MempoolTx.feeRate m)%num = false)
                mempool
      /\ (Forall (fun y => MempoolTx.feeRate y <> NaN) mempool ->
          Forall (fun y => (MempoolTx.feeRate m <=? MempoolTx.feeRate y)%num = true)
                 mempool)
  end.
Proof.
  unfold minedTxsSummaryOf.
  destruct (Js.sort byFeeRateMined mempool) as [|x0 x'] eqn:Ex; [discriminate|].
  intro H. injection H as <-. simpl Summary.minFeeTx.
  pose proof (minBy_spec MempoolTx.feeRate (x0 :: x')) as Hspec.
  rewrite <- Ex in *.
  assert (Hall : forall P : MempoolTx.t -> Prop,
             Forall P (Js.sort byFeeRateMined mempool) -> Forall P mempool).
  { intros P HP. apply Forall_forall. intros y Hy.
    rewrite Forall_forall in HP. apply HP. now apply SortFacts.sort_In. }
  destruct (LodashMore.minBy MempoolTx.feeRate (Js.sort byFeeRateMined mempool))
    as [m|].
  - destruct Hspec as [Hin [Hn Hlt]].
    split; [now apply SortFacts.sort_In in Hin|].
    split; [exact Hn|]. split; [now apply Hall|].
    intro Hnum. apply Hall in Hlt.
    apply Forall_forall. intros y Hy.
    rewrite Forall_forall in Hlt, Hnum.
    apply (SortFacts.ge_total MempoolTx.feeRate y m);
      [now apply Hnum | exact Hn | now apply Hlt].
  - now apply Hall.
Qed.

Lemma summary_minFeeTx_witness :
  exists s m,
    minedTxsSummaryOf (snapshot 5) (Fin 600000) 0 = Some s
    /\ Summary.minFeeTx s = Some m
    /\ MempoolTx.txid m = "4"%string
    /\ Forall (fun y => (MempoolTx.feeRate m <=? MempoolTx.feeRate y)%num = true)
              (snapshot 5).
Proof.
  eexists. eexists. split; [reflexivity|]. split; [reflexivity|].
  split; [reflexivity|].
  pose proof (summary_minFeeTx (snapshot 5) (Fin 600000) 0 _ eq_refl) as H.
  simpl Summary.minFeeTx in H.
  change (LodashMore.minBy MempoolTx.feeRate
            (Js.sort byFeeRateMined (snapshot 5)))
    with (Some (txOf 4 1)) in H.
  destruct H as [_ [_ [_ H]]]. apply H.
  repeat constructor; discriminate.
Defined.

(** X10.  The summary of a mined event is always built: the event has more
    than 500 transactions, so [x[0]] is defined; its [txs] is the number of
    transactions of the event and its [fee] holds one value for each of the
    seven quantiles.  For an event without transaction the callback
    throws. *)
Theorem mined_event_has_summary (memPooler : list (list MempoolTx.t))
    (mempool : list MempoolTx.t) (ibi : number) (timestamp : Z) :
  In mempool (minedTxs memPooler) ->
  minedTxsSummaryOf [] ibi timestamp = None
  /\ exists s,
       minedTxsSummaryOf mempool ibi timestamp = Some s
       /\ Summary.txs s = length mempool
       /\ (500 < Summary.txs s)%nat
       /\ map fst (Summary.fee s) = quantiles.
Proof.
  intro Hin. split; [reflexivity|].
  unfold minedTxs, Rx.filter in Hin. apply filter_In in Hin.
  destruct Hin as [_ Hlen]. apply Nat.ltb_lt in Hlen.
  unfold minedTxsSummaryOf.
  pose proof (SortFacts.sort_length byFeeRateMined mempool) as Hsl.
  destruct (Js.sort byFeeRateMined mempool) as [|x0 x'] eqn:Ex.
  - simpl in Hsl. lia.
  - eexists. split; [reflexivity|]. cbn [Summary.txs Summary.fee].
    split; [exact Hsl|]. split; [rewrite Hsl; exact Hlen|].
    unfold summaryFee. rewrite map_map. simpl.
    reflexivity.
Qed.

Lemma mined_event_has_summary_witness :
  exists s,
    minedTxsSummaryOf (snapshot 501) (Fin 600000) 0 = Some s
    /\ Summary.txs s = 501%nat.
Proof.
  destruct (mined_event_has_summary [snapshot 501; []] (snapshot 501)
              (Fin 600000) 0) as [_ [s [Hs [Htxs _]]]].
  - vm_compute. left. reflexivity.
  - exists s. split; [exact Hs|]. rewrite Htxs. vm_compute. reflexivity.
Defined.

Lemma sorted_app_le {A : Type} (R : A -> A -> Prop) (l1 l2 : list A) :
  StronglySorted R (l1 ++ l2) ->
  forall a b, In a l1 -> In b l2 -> R a b.
Proof.
  induction l1 as [|x l1 IH]; intros Hs a b Ha Hb; [destruct Ha|].
  simpl in Hs. inversion Hs as [|? ? Hs' Hall]; subst.
  destruct Ha as [<-|Ha].
  - rewrite Forall_forall in Hall. apply Hall. apply in_or_app. now right.
  - now apply IH.
Qed.

(** X11.  When no fee rate of a mined event is [NaN], the entries that
    [minQuant] keeps for a quantile are the lowest: the fee rate of an
    entry it keeps is at most the fee rate of every entry it leaves. *)
Theorem minQuant_keeps_lowest (mempool : list MempoolTx.t) (q : Q) :
  Forall (fun y => MempoolTx.feeRate y <> NaN) mempool ->
  let x := Js.sort byFeeRateMined mempool in
  let kept := minQuant x (Fin q) in
  exists left,
    x = left ++ kept
    /\ forall a b, In a left -> In b kept ->
                   (MempoolTx.feeRate b <=? MempoolTx.feeRate a)%num = true.
Proof.
  intros Hnum x kept.
  pose proof (SortFacts.sort_sorted MempoolTx.feeRate mempool Hnum) as Hs.
  change (Js.sort (descending MempoolTx.feeRate) mempool) with x in Hs.
  unfold kept. rewrite Quantile.minQuant_lastN. unfold lastN.
  set (m := (length x - tailSize (length x) q)%nat).
  exists (firstn m x). split; [now rewrite firstn_skipn|].
  rewrite <- (firstn_skipn m x) in Hs.
  intros a b Ha Hb.
  exact (sorted_app_le _ _ _ Hs a b Ha Hb).
Qed.

Lemma minQuant_keeps_lowest_witness :
  exists left,
    Js.sort byFeeRateMined (snapshot 10)
    = left ++ minQuant (Js.sort byFeeRateMined (snapshot 10)) (Fin (4 # 10))
    /\ length left = 7%nat
    /\ forall a b,
         In a left ->
         In b (minQuant (Js.sort byFeeRateMined (snapshot 10)) (Fin (4 # 10))) ->
         (MempoolTx.feeRate b <=? MempoolTx.feeRate a)%num = true.
Proof.
  destruct (minQuant_keeps_lowest (snapshot 10) (4 # 10)) as [left [Hx Hle]].
  - repeat constructor; discriminate.
  - exists left. split; [exact Hx|]. split; [|exact Hle].
    apply (f_equal (@length _)) in Hx. rewrite length_app in Hx.
    assert (H10 : length (Js.sort byFeeRateMined (snapshot 10)) = 10%nat)
      by (vm_compute; reflexivity).
    assert (H3 : length (minQuant (Js.sort byFeeRateMined (snapshot 10))
                           (Fin (4 # 10))) = 3%nat)
      by (vm_compute; reflexivity).
    rewrite H10, H3 in Hx. lia.
Defined.

End SummaryFacts.

(** ** Velocity *)

Module VelocityFacts.

Lemma sizeSum_nonneg (txs : list SizeTx.t) :
  nonNegativeSizes txs -> 0 <= sizeSum txs.
Proof.
  unfold sizeSum. induction 1 as [|tx l [s [Hs Hpos]] Hl IH]; simpl.
  - lra.
  - rewrite Hs. simpl. lra.
Qed.

Lemma fold_added (txs : list SizeTx.t) (a : Q) :
  nonNegativeSizes txs ->
  exists s,
    fold_left (fun acc tx => (acc + toNumber (SizeTx.size tx))%num) txs (Fin a)
    = Fin s
    /\ s == a + sizeSum txs.
Proof.
  unfold sizeSum. intro H. revert a.
  induction H as [|tx l [s [Hs Hpos]] Hl IH]; intro a; simpl.
  - exists a. split; [reflexivity | lra].
  - rewrite Hs. simpl. destruct (IH (a + s)) as [r [Hr Heq]].
    exists r. split; [exact Hr | lra].
Qed.

Lemma fold_removed (txs : list SizeTx.t) (a : Q) (i : number) :
  nonNegativeSizes txs ->
  exists s,
    fold_left (fun acc tx => ((toNumber (SizeTx.size tx) + fst acc)%num, snd acc))
              txs (Fin a, i)
    = (Fin s, i)
    /\ s == a + sizeSum txs.
Proof.
  unfold sizeSum. intro H. revert a.
  induction H as [|tx l [s [Hs Hpos]] Hl IH]; intro a; simpl.
  - exists a. split; [reflexivity | lra].
  - rewrite Hs. simpl. destruct (IH (s + a)) as [r [Hr Heq]].
    exists r. split; [exact Hr | lra].
Qed.

Lemma filter_nonNegative (p : SizeTx.t -> bool) (txs : list SizeTx.t) :
  nonNegativeSizes txs -> nonNegativeSizes (List.filter p txs).
Proof.
  unfold nonNegativeSizes. intro H. apply Forall_forall. intros tx Htx.
  apply filter_In in Htx. rewrite Forall_forall in H. now apply H.
Qed.

Lemma sizeSum_filter_mono (p1 p2 : SizeTx.t -> bool) (txs : list SizeTx.t) :
  (forall tx, p1 tx = true -> p2 tx = true) ->
  nonNegativeSizes txs ->
  sizeSum (List.filter p1 txs) <= sizeSum (List.filter p2 txs).
Proof.
  intros Himp H. unfold sizeSum.
  induction H as [|tx l [s [Hs Hpos]] Hl IH]; simpl; [lra|].
  destruct (p1 tx) eqn:E1.
  - rewrite (Himp tx E1). simpl. lra.
  - destruct (p2 tx); simpl; [rewrite Hs; simpl|]; lra.
Qed.

Lemma ahead_mono (bes : Q) (t1 t2 : nat) (tx : SizeTx.t) :
  0 <= bes -> (t1 <= t2)%nat ->
  ahead bes t1 tx = true -> ahead bes t2 tx = true.
Proof.
  intros Hbes Ht. unfold ahead, ofNat. simpl.
  assert (Hz : inject_Z (Z.of_nat t1) <= inject_Z (Z.of_nat t2))
    by (rewrite <- Zle_Qle; lia).
  destruct (SizeTx.cumSize tx) as [| | |c]; simpl; try discriminate;
    try reflexivity.
  intro H. qprop. nra.
Qed.

(** X13.  With [blockEffectiveSize >= 0], [intTimeAdded > 0] and sizes that
    are non-negative numbers, the bytes added ahead of a target block are
    not negative and do not decrease when the target block grows. *)
Theorem addedBytes_monotone (blockEffectiveSize intTimeAdded : Q)
    (t1 t2 : nat) (txs : list SizeTx.t) :
  0 <= blockEffectiveSize -> 0 < intTimeAdded ->
  nonNegativeSizes txs -> (t1 <= t2)%nat ->
  (zero <=? addedBytesOf blockEffectiveSize intTimeAdded t1 txs)%num = true
  /\ (addedBytesOf blockEffectiveSize intTimeAdded t1 txs
      <=? addedBytesOf blockEffectiveSize intTimeAdded t2 txs)%num = true.
Proof.
  intros Hbes HT Hsize Ht. unfold addedBytesOf, zero.
  pose proof (sizeSum_filter_mono _ _ txs
                (fun tx => ahead_mono blockEffectiveSize t1 t2 tx Hbes Ht) Hsize)
    as Hmono.
  pose proof (sizeSum_nonneg _ (filter_nonNegative (ahead blockEffectiveSize t1)
                                  txs Hsize)) as Hpos.
  destruct (fold_added _ 0 (filter_nonNegative (ahead blockEffectiveSize t1)
                              txs Hsize)) as [s1 [-> H1]].
  destruct (fold_added _ 0 (filter_nonNegative (ahead blockEffectiveSize t2)
                              txs Hsize)) as [s2 [-> H2]].
  simpl. replace (Qeq_bool intTimeAdded 0) with false
    by (symmetry; qprop; lra).
  simpl. assert (Hi : 0 < / intTimeAdded) by now apply Qinv_lt_0_compat.
  unfold Qdiv. split; qprop; nra.
Qed.

Lemma addedBytes_monotone_witness :
  (addedBytesOf 1000000 600000 1 threeTxs === Fin 900000)%num = true
  /\ (addedBytesOf 1000000 600000 2 threeTxs === Fin 1300000)%num = true
  /\ (zero <=? addedBytesOf 1000000 600000 1 threeTxs)%num = true
  /\ (addedBytesOf 1000000 600000 1 threeTxs
      <=? addedBytesOf 1000000 600000 2 threeTxs)%num = true.
Proof.
  split; [reflexivity|]. split; [reflexivity|].
  apply (addedBytes_monotone 1000000 600000 1 2 threeTxs).
  - discriminate.
  - reflexivity.
  - repeat constructor; simpl; eexists; (split; [reflexivity | lra]).
  - lia.
Defined.

(** X14.  With [blockEffectiveSize >= 0], an interval [ibi > 0] and sizes
    that are non-negative numbers, the bytes removed ahead of a target
    block are not negative and do not decrease when the target block
    grows. *)
Theorem removedBytes_monotone (blockEffectiveSize : Q) (t1 t2 : nat)
    (x : Removed.t) (ibi : Q) :
  0 <= blockEffectiveSize ->
  Removed.ibi x = Fin ibi -> 0 < ibi ->
  nonNegativeSizes (Removed.txs x) -> (t1 <= t2)%nat ->
  (zero <=? removedBytesOf blockEffectiveSize t1 x)%num = true
  /\ (removedBytesOf blockEffectiveSize t1 x
      <=? removedBytesOf blockEffectiveSize t2 x)%num = true.
Proof.
  intros Hbes Hibi Hi Hsize Ht. unfold removedBytesOf, zero. rewrite Hibi.
  pose proof (sizeSum_filter_mono _ _ (Removed.txs x)
                (fun tx => ahead_mono blockEffectiveSize t1 t2 tx Hbes Ht) Hsize)
    as Hmono.
  pose proof (sizeSum_nonneg _ (filter_nonNegative (ahead blockEffectiveSize t1)
                                  _ Hsize)) as Hpos.
  destruct (fold_removed _ 0 (Fin ibi)
              (filter_nonNegative (ahead blockEffectiveSize t1) _ Hsize))
    as [s1 [-> H1]].
  destruct (fold_removed _ 0 (Fin ibi)
              (filter_nonNegative (ahead blockEffectiveSize t2) _ Hsize))
    as [s2 [-> H2]].
  simpl.
  assert (Hd : 0 < ibi / 60000)
    by (apply Qlt_shift_div_l; [reflexivity | lra]).
  replace (Qeq_bool (ibi / 60000) 0) with false by (symmetry; qprop; lra).
  simpl. assert (Hinv : 0 < / (ibi / 60000)) by now apply Qinv_lt_0_compat.
  set (d := ibi / 60000) in *. unfold Qdiv. split; qprop; nra.
Qed.

Lemma removedBytes_monotone_witness :
  (removedBytesOf 1000000 1 (blockOf 600000 threeTxs) === Fin 900000)%num = true
  /\ (zero <=? removedBytesOf 1000000 1 (blockOf 600000 threeTxs))%num = true
  /\ (removedBytesOf 1000000 1 (blockOf 600000 threeTxs)
      <=? removedBytesOf 1000000 2 (blockOf 600000 threeTxs))%num = true.
Proof.
  split; [reflexivity|].
  apply (removedBytes_monotone 1000000 1 2 (blockOf 600000 threeTxs) 600000).
  - discriminate.
  - reflexivity.
  - reflexivity.
  - repeat constructor; simpl; eexists; (split; [reflexivity | lra]).
  - lia.
Defined.

Lemma distinct_all_NaN (l : list number) :
  Forall (fun v => v = NaN) l -> Stream.distinctUntilChanged Num.eqb l = l.
Proof.
  intro H. destruct H as [|x l Hx Hl]; [reflexivity|]. simpl. f_equal.
  subst x. induction Hl as [|y l Hy Hl IH]; [reflexivity|].
  subst y. simpl. now rewrite IH.
Qed.

Lemma all_NaN_repeat (l : list number) :
  Forall (fun v => v = NaN) l -> l = repeat NaN (length l).
Proof.
  induction 1 as [|x l Hx Hl IH]; simpl; [reflexivity|].
  now rewrite Hx, <- IH.
Qed.

(** X15.  A removed buffer whose interval is 0 gives no finite velocity:
    with sizes that are non-negative numbers, the quotient by the interval
    is [NaN] when the bytes ahead of the target sum to 0 and [Infinity]
    when they sum to more.  [NaN] is not equal to itself, so
    [distinctUntilChanged] lets every such [NaN] through. *)
Theorem removedBytes_null_interval (blockEffectiveSize : Q) (t : nat)
    (buffers : list Removed.t) :
  Forall (fun x => (Removed.ibi x === zero)%num = true
                   /\ nonNegativeSizes (Removed.txs x)) buffers ->
  Forall (fun x =>
            let bytes :=
              sizeSum (List.filter (ahead blockEffectiveSize t)
                         (Removed.txs x)) in
            (bytes == 0 -> removedBytesOf blockEffectiveSize t x = NaN)
            /\ (~ bytes == 0 -> removedBytesOf blockEffectiveSize t x = PInf))
         buffers
  /\ (Forall (fun x => sizeSum (List.filter (ahead blockEffectiveSize t)
                                  (Removed.txs x)) == 0) buffers ->
      removedBytesAheadTargetPer10min blockEffectiveSize t buffers
      = repeat NaN (length buffers)).
Proof.
  intro H.
  assert (Hper : Forall (fun x =>
            let bytes :=
              sizeSum (List.filter (ahead blockEffectiveSize t)
                         (Removed.txs x)) in
            (bytes == 0 -> removedBytesOf blockEffectiveSize t x = NaN)
            /\ (~ bytes == 0 -> removedBytesOf blockEffectiveSize t x = PInf))
         buffers).
  { eapply Forall_impl; [|exact H]. intros x [Hibi Hsize]. cbv zeta.
    unfold removedBytesOf, zero in *.
    destruct (Removed.ibi x) as [| | |i] eqn:Ei; try discriminate Hibi.
    simpl in Hibi. qprop.
    destruct (fold_removed _ 0 (Fin i)
                (filter_nonNegative (ahead blockEffectiveSize t) _ Hsize))
      as [s [-> Hs]].
    pose proof (sizeSum_nonneg _ (filter_nonNegative
                  (ahead blockEffectiveSize t) _ Hsize)) as Hpos.
    simpl.
    replace (Qeq_bool (i / 60000) 0) with true
      by (symmetry; qprop; rewrite Hibi; reflexivity).
    unfold infOfSign. split; intro Hb.
    - replace (Qeq_bool s 0) with true
        by (symmetry; qprop; rewrite Hs, Hb; reflexivity).
      reflexivity.
    - destruct (Qeq_bool s 0) eqn:E0.
      + exfalso. apply Hb. qprop. rewrite <- E0, Hs. ring.
      + replace (Qlt_bool 0 s) with true; [reflexivity|].
        symmetry. qprop.
        destruct (Qlt_le_dec 0 s) as [Hlt|Hle]; [exact Hlt|].
        exfalso. apply Hb. lra. }
  split; [exact Hper|].
  intro Hnone. unfold removedBytesAheadTargetPer10min.
  assert (Hall : Forall (fun v => v = NaN)
                        (map (removedBytesOf blockEffectiveSize t) buffers)).
  { apply Forall_forall. intros v Hv. apply in_map_iff in Hv.
    destruct Hv as [x [<- Hx]].
    rewrite Forall_forall in Hper, Hnone.
    exact (proj1 (Hper x Hx) (Hnone x Hx)). }
  rewrite (distinct_all_NaN _ Hall).
  rewrite (all_NaN_repeat _ Hall). now rewrite length_map.
Qed.

(** Two blocks without a removed transaction and a null interval give two
    [NaN]s; two of the three transactions are ahead of the first boundary,
    and with a null interval they give [Infinity]. *)
Lemma removedBytes_null_interval_witness :
  removedBytesAheadTargetPer10min 1000000 1 [idleBlock; idleBlock] = [NaN; NaN]
  /\ removedBytesOf 1000000 1 (blockOf 0 threeTxs) = PInf.
Proof.
  split.
  - destruct (removedBytes_null_interval 1000000 1 [idleBlock; idleBlock])
      as [_ H].
    + repeat constructor.
    + apply H. repeat constructor.
  - destruct (removedBytes_null_interval 1000000 1 [blockOf 0 threeTxs])
      as [H _].
    + repeat constructor; simpl; eexists; (split; [reflexivity | lra]).
    + inversion H as [|? ? [_ Hx] _]; subst. apply Hx.
      vm_compute. discriminate.
Defined.

Lemma bufferCount_nth {A : Type} (n : nat) (l : list A) (k : nat)
    (w : list A) :
  nth_error (Stream.bufferCount (S n) l) k = Some w
  <-> (k + S n <= length l)%nat /\ w = firstn (S n) (skipn k l).
Proof.
  revert k. induction l as [|x l IH]; intro k.
  - simpl. split; [destruct k; discriminate | intros [H _]; lia].
  - cbn [Stream.bufferCount].
    destruct (S n <=? length (x :: l))%nat eqn:E.
    + apply Nat.leb_le in E. destruct k as [|k].
      * simpl. split.
        -- intro H. injection H as <-. split; [simpl in E; lia | reflexivity].
        -- intros [_ ->]. reflexivity.
      * cbn [nth_error skipn]. rewrite IH. simpl length. split.
        -- intros [H ->]. split; [lia | reflexivity].
        -- intros [H ->]. split; [lia | reflexivity].
    + apply Nat.leb_gt in E. split.
      * destruct k; discriminate.
      * intros [H _]. lia.
Qed.

Lemma bufferCount_length {A : Type} (n : nat) (l : list A) :
  length (Stream.bufferCount (S n) l) = (length l - n)%nat.
Proof.
  induction l as [|x l IH]; [reflexivity|].
  cbn [Stream.bufferCount].
  destruct (S n <=? length (x :: l))%nat eqn:E.
  - apply Nat.leb_le in E. cbn [length] in *. rewrite IH. lia.
  - apply Nat.leb_gt in E. cbn [length] in *. lia.
Qed.

Lemma fold_coalesce (w : list Removed.t) (acc : Removed.t) :
  Removed.txs (fold_left coalesce w acc)
  = Removed.txs acc ++ flat_map Removed.txs w.
Proof.
  revert acc. induction w as [|y w IH]; intro acc; simpl.
  - now rewrite app_nil_r.
  - rewrite IH. simpl. now rewrite <- app_assoc.
Qed.

Lemma fold_coalesce_ibi (w : list Removed.t) (acc : Removed.t) (a : Q) :
  Removed.ibi acc = Fin a ->
  Forall (fun y => exists i, Removed.ibi y = Fin i) w ->
  exists s,
    Removed.ibi (fold_left coalesce w acc) = Fin s
    /\ s == a + Qsum (map (fun y => rateOf (Removed.ibi y)) w).
Proof.
  intros Ha H. revert acc a Ha.
  induction H as [|y w [i Hi] Hw IH]; intros acc a Ha; simpl.
  - exists a. split; [exact Ha | lra].
  - destruct (IH (coalesce acc y) (i + a)) as [s [Hs Heq]].
    + simpl. now rewrite Hi, Ha.
    + exists s. split; [exact Hs|]. rewrite Hi. simpl. lra.
Qed.

(** X16.  With [intBlocksRemoved = n >= 1], [bufferRemoved$] emits nothing
    before [n] blocks, and then one value for each block: the [k]-th value
    holds the transactions removed over the blocks [k, ..., k + n - 1], in
    that order, and, when their intervals are finite, the sum of these
    intervals.  With [intBlocksRemoved = 0] it never emits. *)
Theorem bufferRemoved_windows (n : nat) (blocks : list Removed.t) :
  bufferRemoved 0 blocks = []
  /\ length (bufferRemoved (S n) blocks) = (length blocks - n)%nat
  /\ forall k w,
       nth_error (bufferRemoved (S n) blocks) k = Some w ->
       let window := firstn (S n) (skipn k blocks) in
       length window = S n
       /\ Removed.txs w = flat_map Removed.txs window
       /\ (Forall (fun y => exists i, Removed.ibi y = Fin i) window ->
           exists s,
             Removed.ibi w = Fin s
             /\ s == Qsum (map (fun y => rateOf (Removed.ibi y)) window)).
Proof.
  split; [|split].
  - unfold bufferRemoved. now destruct blocks.
  - unfold bufferRemoved. rewrite length_map. apply bufferCount_length.
  - intros k w Hk window. unfold bufferRemoved in Hk.
    rewrite nth_error_map in Hk.
    destruct (nth_error (Stream.bufferCount (S n) blocks) k) as [b|] eqn:Eb;
      [|discriminate].
    injection Hk as <-. apply bufferCount_nth in Eb.
    destruct Eb as [Hlen ->]. fold window. split; [|split].
    + unfold window. rewrite length_firstn, length_skipn. lia.
    + now rewrite fold_coalesce.
    + intro Hfin.
      destruct (fold_coalesce_ibi window
                  {| Removed.ibi := zero; Removed.txs := [] |} 0 eq_refl Hfin)
        as [s [Hs Heq]].
      exists s. split; [exact Hs | lra].
Qed.

Lemma combineLatestFrom_sources {A B C : Type} (f : A -> B -> C)
    (events : list (A + B)) (a : option A) (b : option B) :
  Forall (fun v => exists x y,
              (a = Some x \/ In (inl x) events)
              /\ (b = Some y \/ In (inr y) events)
              /\ v = f x y)
         (combineLatestFrom f a b events).
Proof.
  revert a b. induction events as [|e events IH]; intros a b; [constructor|].
  cbn [combineLatestFrom].
  set (a' := match e with inl x => Some x | inr _ => a end).
  set (b' := match e with inl _ => b | inr y => Some y end).
  assert (Htail : Forall (fun v => exists x y,
              (a = Some x \/ In (inl x) (e :: events))
              /\ (b = Some y \/ In (inr y) (e :: events))
              /\ v = f x y)
            (combineLatestFrom f a' b' events)).
  { eapply Forall_impl; [|apply (IH a' b')].
    intros v [x [y [Hx [Hy Hv]]]]. exists x, y. split; [|split; [|exact Hv]].
    - destruct Hx as [Hx|Hx]; [|right; now right].
      unfold a' in Hx. destruct e as [x0|y0]; [|now left].
      injection Hx as ->. right. now left.
    - destruct Hy as [Hy|Hy]; [|right; now right].
      unfold b' in Hy. destruct e as [x0|y0]; [now left|].
      injection Hy as ->. right. now left. }
  destruct a' as [x|] eqn:Ea; [|exact Htail].
  destruct b' as [y|] eqn:Eb; [|exact Htail].
  constructor; [|exact Htail].
  exists x, y. split; [|split; [|reflexivity]].
  - unfold a' in Ea. destruct e as [x0|y0]; [|now left].
    injection Ea as ->. right. now left.
  - unfold b' in Eb. destruct e as [x0|y0]; [now left|].
    injection Eb as ->. right. now left.
Qed.

Lemma distinctFrom_In {A : Type} (compare : A -> A -> bool) (l : list A)
    (key v : A) :
  In v (Stream.distinctFrom compare key l) -> In v l.
Proof.
  revert key. induction l as [|x l IH]; intros key H; [destruct H|].
  simpl in H. destruct (compare key x).
  - right. now apply (IH key).
  - destruct H as [<-|H]; [now left | right; now apply (IH x)].
Qed.

Lemma distinctUntilChanged_In {A : Type} (compare : A -> A -> bool)
    (l : list A) (v : A) :
  In v (Stream.distinctUntilChanged compare l) -> In v l.
Proof.
  destruct l as [|x l]; [intros []|]. simpl.
  intros [<-|H]; [now left | right; now apply distinctFrom_In in H].
Qed.

(** X17.  Every value of [velocity] is the difference of a value of the
    added bytes and of a value of the removed bytes that were emitted: as
    long as one of the two sources has not emitted, [velocity] is silent.
    Two values emitted in a row are never equal. *)
Theorem velocity_needs_both (events : list (number + number)) :
  Forall (fun v => exists addV rmV,
              In (inl addV) events /\ In (inr rmV) events
              /\ v = (addV - rmV)%num)
         (velocity events)
  /\ ((forall rmV, ~ In (inr rmV) events) -> velocity events = [])
  /\ ((forall addV, ~ In (inl addV) events) -> velocity events = [])
  /\ changing Num.eqb (velocity events).
Proof.
  assert (H : Forall (fun v => exists addV rmV,
              In (inl addV) events /\ In (inr rmV) events
              /\ v = (addV - rmV)%num)
         (velocity events)).
  { apply Forall_forall. intros v Hv. unfold velocity in Hv.
    apply distinctUntilChanged_In in Hv.
    pose proof (combineLatestFrom_sources
                  (fun addV rmV => (addV - rmV)%num) events None None) as Hs.
    rewrite Forall_forall in Hs.
    destruct (Hs v Hv) as [x [y [[Hx|Hx] [[Hy|Hy] Hv']]]]; try discriminate.
    now exists x, y. }
  split; [exact H|]. split; [|split].
  - intro Hno. destruct (velocity events) as [|v l]; [reflexivity|].
    inversion H as [|? ? [a [r [_ [Hr _]]]] _]; subst. now apply Hno in Hr.
  - intro Hno. destruct (velocity events) as [|v l]; [reflexivity|].
    inversion H as [|? ? [a [r [Ha _]]] _]; subst. now apply Hno in Ha.
  - apply Poller.distinctUntilChanged_changing.
Qed.

End VelocityFacts.

(** ** Positions *)

Module PositionFacts.

Lemma finalPosition_one (t : nat) (s : list MempoolTx.t) :
  finalPosition t [s]
  = match find (fun tx => (MempoolTx.targetBlock tx =? t + 1)%nat) s with
    | Some tx => [MempoolTx.cumSize tx]
    | None => []
    end.
Proof.
  unfold finalPosition, Stream.defined. simpl.
  now destruct (find _ s).
Qed.

Lemma steps_below (l : list nat) (a T : nat) :
  stepsOfAtMostOne (a :: l) -> (a <= T)%nat ->
  (forall x, In x l -> x <> S T) ->
  Forall (fun x => (x <= T)%nat) l.
Proof.
  unfold stepsOfAtMostOne. revert a.
  induction l as [|x l IH]; intros a Hs Ha Hne; constructor.
  - inversion Hs as [|? ? _ Hhd]; subst. inversion Hhd as [|? ? Hax]; subst.
    assert (x <> S T) by (apply Hne; now left). lia.
  - inversion Hs as [|? ? Hs' Hhd]; subst. inversion Hhd as [|? ? Hax]; subst.
    apply (IH x); [exact Hs'| |intros y Hy; apply Hne; now right].
    assert (x <> S T) by (apply Hne; now left). lia.
Qed.

(** X18.  For a target block [t >= 1], [finalPosition] is silent on a
    snapshot exactly when no transaction of the snapshot is packed beyond
    the block [t]: the block [t + 1] cannot be jumped over. *)
Theorem finalPosition_silent (blockEffectiveSize : Q) (t : nat)
    (txs : RawMempool) :
  (1 <= t)%nat ->
  finalPosition t [sortByFee blockEffectiveSize txs] = []
  <-> Forall (fun tx => (MempoolTx.targetBlock tx <= t)%nat)
             (sortByFee blockEffectiveSize txs).
Proof.
  intro Ht. rewrite finalPosition_one.
  set (out := sortByFee blockEffectiveSize txs).
  destruct (find (fun tx => (MempoolTx.targetBlock tx =? t + 1)%nat) out)
    as [tx|] eqn:E.
  - split; [discriminate|]. intro Hall.
    apply find_some in E. destruct E as [Hin Heq].
    apply Nat.eqb_eq in Heq. rewrite Forall_forall in Hall.
    specialize (Hall tx Hin). lia.
  - split; [intros _ | reflexivity].
    pose proof (PackFacts.pack_targetBlock blockEffectiveSize zero 1 1
                  (Js.sort byFeeRate (map project txs))) as Hs.
    fold (sortByFeeFrom blockEffectiveSize txs zero 1 1) in Hs.
    fold (sortByFee blockEffectiveSize txs) in Hs. fold out in Hs.
    assert (Hall : Forall (fun x => (x <= t)%nat) (map MempoolTx.targetBlock out)).
    { apply (steps_below _ 1 t Hs Ht). intros x Hx.
      apply in_map_iff in Hx. destruct Hx as [tx [<- Hin]].
      pose proof (find_none _ _ E tx Hin) as Hne. simpl in Hne.
      apply Nat.eqb_neq in Hne. lia. }
    rewrite Forall_map in Hall. exact Hall.
Qed.

Lemma finalPosition_silent_witness :
  finalPosition 2 [sortByFee 1000000 boundary] = []
  /\ finalPosition 1 [sortByFee 1000000 boundary] = [Fin 1100000].
Proof.
  split; [|vm_compute; reflexivity].
  apply (finalPosition_silent 1000000 2 boundary); [lia|].
  repeat constructor.
Defined.

Lemma find_ordered {A : Type} (R : A -> A -> Prop) (key : A -> nat)
    (p1 p2 : A -> bool) (l : list A) (e1 e2 : A) :
  StronglySorted (fun a b => (key a <= key b)%nat /\ R a b) l ->
  find p1 l = Some e1 -> find p2 l = Some e2 ->
  (key e1 < key e2)%nat -> R e1 e2.
Proof.
  induction 1 as [|x l Hs IH Hall]; intros H1 H2 Hlt; [discriminate|].
  simpl in H1, H2. rewrite Forall_forall in Hall.
  destruct (p1 x) eqn:E1.
  - injection H1 as <-. destruct (p2 x).
    + injection H2 as <-. lia.
    + apply find_some in H2. destruct H2 as [Hin _].
      exact (proj2 (Hall e2 Hin)).
  - destruct (p2 x).
    + injection H2 as <-. apply find_some in H1. destruct H1 as [Hin _].
      pose proof (proj1 (Hall e1 Hin)). lia.
    + now apply IH.
Qed.

(** X19.  When the sizes are non-negative numbers and [t >= 1], the
    position that [finalPosition] emits for the target block [t] is above
    [t * blockEffectiveSize], and does not decrease when the target block
    grows. *)
Theorem finalPosition_beyond_boundary (blockEffectiveSize : Q) (t : nat)
    (txs : RawMempool) (c : number) :
  Forall (fun kv => nonNegative (Raw.size (snd kv))) txs ->
  (1 <= t)%nat ->
  finalPosition t [sortByFee blockEffectiveSize txs] = [c] ->
  (ofNat t * Fin blockEffectiveSize <? c)%num = true
  /\ forall t' c',
       (t <= t')%nat ->
       finalPosition t' [sortByFee blockEffectiveSize txs] = [c'] ->
       (c <=? c')%num = true.
Proof.
  intros Hsize Ht Hc. rewrite finalPosition_one in Hc.
  set (out := sortByFee blockEffectiveSize txs) in *.
  destruct (find (fun tx => (MempoolTx.targetBlock tx =? t + 1)%nat) out)
    as [tx|] eqn:E; [|discriminate].
  injection Hc as <-.
  pose proof (PackMore.pack_bounds blockEffectiveSize _
                (PackMore.sorted_sizes txs Hsize) 1%nat 0) as Hb.
  fold (sortByFeeFrom blockEffectiveSize txs zero 1 1) in Hb.
  fold (sortByFee blockEffectiveSize txs) in Hb. fold out in Hb.
  rewrite Forall_forall in Hb.
  pose proof (find_some _ _ E) as [Hin Heq]. apply Nat.eqb_eq in Heq.
  destruct (Hb tx Hin) as [_ [[d [Hd _]] Hbound]].
  split.
  - replace t with (MempoolTx.targetBlock tx - 1)%nat by lia.
    apply Hbound. lia.
  - intros t' c' Htt' Hc'. rewrite finalPosition_one in Hc'. fold out in Hc'.
    destruct (find (fun tx => (MempoolTx.targetBlock tx =? t' + 1)%nat) out)
      as [tx'|] eqn:E'; [|discriminate].
    injection Hc' as <-.
    pose proof (find_some _ _ E') as [Hin' Heq']. apply Nat.eqb_eq in Heq'.
    destruct (Nat.eq_dec t t') as [->|Hne].
    + rewrite E in E'. injection E' as <-. rewrite Hd. simpl. qprop. lra.
    + pose proof (PackMore.pack_ordered blockEffectiveSize _
                    (PackMore.sorted_sizes txs Hsize) 1%nat 0) as Hs.
      fold (sortByFeeFrom blockEffectiveSize txs zero 1 1) in Hs.
      fold (sortByFee blockEffectiveSize txs) in Hs. fold out in Hs.
      apply (find_ordered
               (fun a b => (MempoolTx.cumSize a <=? MempoolTx.cumSize b)%num = true)
               MempoolTx.targetBlock _ _ out tx tx' Hs E E'). lia.
Qed.

Lemma finalPosition_beyond_boundary_witness :
  (ofNat 1 * Fin 1000000 <? Fin 1100000)%num = true
  /\ forall t' c',
       (1 <= t')%nat ->
       finalPosition t' [sortByFee 1000000 boundary] = [c'] ->
       (Fin 1100000 <=? c')%num = true.
Proof.
  apply (finalPosition_beyond_boundary 1000000 1 boundary (Fin 1100000)).
  - repeat constructor; simpl; eexists; (split; [reflexivity | lra]).
  - lia.
  - vm_compute. reflexivity.
Defined.

(** X20.  For finite position, velocity and acceleration, the initial
    position is [x - (v t + a t^2 / 2)]: it is the final position when
    velocity and acceleration are null, and it is at most the final
    position when neither is negative. *)
Theorem initialPosition_back_projection (t : nat) (x v a : Q) :
  let T := inject_Z (Z.of_nat t) in
  (initialPositionOf t (Fin x) (Fin v) (Fin a)
   === Fin (x - (v * T + a * T * T / 2)))%num = true
  /\ (initialPositionOf t (Fin x) (Fin 0) (Fin 0) === Fin x)%num = true
  /\ (0 <= v -> 0 <= a ->
      (initialPositionOf t (Fin x) (Fin v) (Fin a) <=? Fin x)%num = true).
Proof.
  intro T.
  assert (HT : 0 <= T)
    by (unfold T; change 0 with (inject_Z 0); rewrite <- Zle_Qle; lia).
  unfold initialPositionOf, square, ofNat, sub. fold T. simpl.
  split; [|split].
  - qprop. field.
  - qprop. field.
  - intros Hv Ha. qprop.
    assert (H2 : 0 <= T * T) by nra.
    assert (H3 : 0 <= a * (T * T)) by nra.
    assert (H4 : 0 <= v * T) by nra.
    change (1 / 2) with (1 # 2). lra.
Qed.

End PositionFacts.

(** ** Fee estimates *)

Module EstimateFacts.

Lemma candidates_split (pos : number) (txs : list MempoolTx.t)
    (before after : list Candidate.t) (m : Candidate.t) :
  map (fun tx => {| Candidate.tx := tx; Candidate.distance := distanceTo pos tx |})
      txs
  = before ++ m :: after ->
  Candidate.distance m = distanceTo pos (Candidate.tx m)
  /\ exists b a,
       txs = b ++ Candidate.tx m :: a
       /\ before
          = map (fun tx => {| Candidate.tx := tx;
                              Candidate.distance := distanceTo pos tx |}) b
       /\ after
          = map (fun tx => {| Candidate.tx := tx;
                              Candidate.distance := distanceTo pos tx |}) a.
Proof.
  intro H. apply map_eq_app in H. destruct H as [b [r [-> [Hb Hr]]]].
  apply map_eq_cons in Hr. destruct Hr as [tx [a [-> [<- Ha]]]].
  split; [reflexivity|]. exists b, a. simpl. repeat split; congruence.
Qed.

(** What [getFeeTx] finds. *)
Lemma getFeeTx_found (pos : number) (txs : list MempoolTx.t) :
  match getFeeTxOf pos txs with
  | None => Forall (fun tx => distanceTo pos tx = NaN) txs
  | Some m =>
      Candidate.distance m = distanceTo pos (Candidate.tx m)
      /\ Candidate.distance m <> NaN
      /\ exists before after,
           txs = before ++ Candidate.tx m :: after
           /\ Forall (fun tx => (distanceTo pos tx <=? Candidate.distance m)%num
                                = false) before
           /\ Forall (fun tx => (distanceTo pos tx <? Candidate.distance m)%num
                                = false) after
  end.
Proof.
  unfold getFeeTxOf. fold (distanceTo pos).
  pose proof (SummaryFacts.minBy_first Candidate.distance
                (map (fun tx => {| Candidate.tx := tx;
                                   Candidate.distance := distanceTo pos tx |})
                     txs)) as H.
  change (fun tx => {| Candidate.tx := tx;
                       Candidate.distance :=
                         Math_abs (MempoolTx.cumSize tx - pos)%num |})
    with (fun tx => {| Candidate.tx := tx;
                       Candidate.distance := distanceTo pos tx |}).
  destruct (LodashMore.minBy Candidate.distance _) as [m|].
  - destruct H as [Hn [before [after [Hl [Hb Ha]]]]].
    destruct (candidates_split pos txs before after m Hl)
      as [Hd [b [a [Htxs [Hbm Ham]]]]].
    split; [exact Hd|]. split; [exact Hn|].
    exists b, a. split; [exact Htxs|]. subst before after.
    rewrite Forall_map in Hb, Ha. split; assumption.
  - rewrite Forall_map in H. exact H.
Qed.

(** X21.  [getFeeTx] finds nothing when the distance of every transaction
    of the snapshot to the position is [NaN] (so for an empty snapshot);
    else it finds a transaction of the snapshot at a distance that is a
    number, that no transaction is nearer than, and, among these, the
    first of the snapshot: every transaction before it is farther. *)
Theorem getFeeTx_nearest_first (pos : number) (txs : list MempoolTx.t) :
  match getFeeTxOf pos txs with
  | None => Forall (fun tx => distanceTo pos tx = NaN) txs
  | Some m =>
      Candidate.distance m = distanceTo pos (Candidate.tx m)
      /\ Candidate.distance m <> NaN
      /\ exists before after,
           txs = before ++ Candidate.tx m :: after
           /\ Forall (fun tx => (distanceTo pos tx <=? Candidate.distance m)%num
                                = false) before
           /\ Forall (fun tx => (distanceTo pos tx <? Candidate.distance m)%num
                                = false) after
  end.
Proof. exact (getFeeTx_found pos txs). Qed.

(** X22.  No fee estimate is emitted for an empty snapshot or for a
    position that is [NaN].  An estimate that is emitted bears the target
    block asked for, and its fee rate is 0.999 times the fee rate of a
    transaction of the snapshot: positive and strictly below it when that
    fee rate is positive. *)
Theorem estimate_from_snapshot (targetBlock : nat) (timestamp : Z)
    (pos : number) (txs : list MempoolTx.t) :
  estimateOf targetBlock timestamp pos [] = None
  /\ estimateOf targetBlock timestamp NaN txs = None
  /\ forall fee,
       estimateOf targetBlock timestamp pos txs = Some fee ->
       Fee.targetBlock fee = targetBlock
       /\ exists tx,
            In tx txs
            /\ Fee.feeRate fee = (MempoolTx.feeRate tx * Fin (999 # 1000))%num
            /\ forall r,
                 MempoolTx.feeRate tx = Fin r -> 0 < r ->
                 (zero <? Fee.feeRate fee)%num = true
                 /\ (Fee.feeRate fee <? MempoolTx.feeRate tx)%num = true.
Proof.
  split; [reflexivity|]. split.
  - unfold estimateOf.
    pose proof (getFeeTx_found NaN txs) as H.
    destruct (getFeeTxOf NaN txs) as [m|]; [|reflexivity].
    destruct H as [Hd [Hn _]]. exfalso. apply Hn. rewrite Hd.
    unfold distanceTo, sub. now destruct (MempoolTx.cumSize (Candidate.tx m)).
  - intros fee Hfee. unfold estimateOf in Hfee.
    pose proof (getFeeTx_found pos txs) as H.
    destruct (getFeeTxOf pos txs) as [m|]; [|discriminate].
    injection Hfee as <-. split; [reflexivity|].
    destruct H as [_ [_ [before [after [Htxs _]]]]].
    exists (Candidate.tx m). split; [|split].
    + rewrite Htxs. apply in_or_app. right. now left.
    + reflexivity.
    + intros r Hr Hpos. simpl. rewrite Hr. simpl. unfold zero.
      split; simpl; qprop; lra.
Qed.

End EstimateFacts.

(** ** The fee curve and its ranking, further *)

Module RankFacts.

Lemma entriesFrom_nth (xs rest : list Fee.t) (i k : nat) (e : FeeDiff.t) :
  nth_error (entriesFrom xs i rest) k = Some e ->
  exists fee, nth_error rest k = Some fee /\ e = feeDiffEntry fee (i + k) xs.
Proof.
  revert i k. induction rest as [|fee rest IH]; intros i k H.
  - destruct k; discriminate.
  - destruct k as [|k]; simpl in H.
    + injection H as <-. exists fee. split; [reflexivity|].
      now rewrite Nat.add_0_r.
    + destruct (IH (S i) k H) as [f [Hf ->]]. exists f. split; [exact Hf|].
      f_equal. lia.
Qed.

Lemma rangeAt_step (i : nat) :
  (S i < 4)%nat -> (rangeAt (S i) - rangeAt i)%num = Fin (1 # 1).
Proof.
  intro H. destruct i as [|[|[|i]]]; try lia; reflexivity.
Qed.

Lemma rangeAt_beyond (i : nat) : (4 <= i)%nat -> rangeAt i = NaN.
Proof.
  intro H. unfold rangeAt.
  replace (nth_error range i) with (@None Q); [reflexivity|].
  symmetry. apply nth_error_None. simpl. lia.
Qed.

(** X23.  [feeDiff$] keeps the first estimate with the slope 0.  For a
    later estimate of rank below 4, with finite fee rates, the slope is
    the fee rate minus the fee rate of the estimate before, and the
    estimate is kept exactly when its fee rate is not above that one; from
    the rank 4 on, [range[i]] is undefined, the slope is [NaN] and the
    estimate is dropped. *)
Theorem feeDiff_keeps_descents (x : list Fee.t) :
  feeDiff x
  = List.filter (fun e => (FeeDiff.diff e <=? zero)%num) (entriesFrom x 0 x)
  /\ (forall fee rest, x = fee :: rest ->
        exists kept, feeDiff x = withDiff zero fee :: kept)
  /\ forall i e fee prev r p,
       nth_error (entriesFrom x 0 x) (S i) = Some e ->
       nth_error x (S i) = Some fee -> nth_error x i = Some prev ->
       Fee.feeRate fee = Fin r -> Fee.feeRate prev = Fin p ->
       ((S i < 4)%nat ->
        (FeeDiff.diff e === Fin (r - p))%num = true
        /\ ((FeeDiff.diff e <=? zero)%num = true <-> r <= p))
       /\ ((4 <= S i)%nat ->
           FeeDiff.diff e = NaN /\ (FeeDiff.diff e <=? zero)%num = false).
Proof.
  assert (H0 : feeDiff x
               = List.filter (fun e => (FeeDiff.diff e <=? zero)%num)
                             (entriesFrom x 0 x)).
  { unfold feeDiff, Js.reduce. now rewrite Recommend.reduceFrom_feeDiffStep. }
  split; [exact H0|]. split.
  - intros fee rest ->. rewrite H0. simpl. eexists. reflexivity.
  - intros i e fee prev r p He Hfee Hprev Hr Hp.
    apply entriesFrom_nth in He. destruct He as [fee' [Hfee' ->]].
    rewrite Hfee in Hfee'. injection Hfee' as <-.
    simpl plus. unfold feeDiffEntry. simpl Nat.ltb. cbn iota.
    rewrite (nth_error_nth _ _ fee Hfee).
    replace (S i - 1)%nat with i by lia.
    rewrite (nth_error_nth _ _ fee Hprev). rewrite Hr, Hp.
    split.
    + intro Hlt. rewrite (rangeAt_step i Hlt). simpl. unfold zero. split.
      * qprop. field.
      * simpl. split; intro H; qprop.
        -- assert (Hq : (r + - p) / 1 == r - p) by field. lra.
        -- assert (Hq : (r + - p) / 1 == r - p) by field. lra.
    + intro Hge. rewrite (rangeAt_beyond (S i) Hge). split; reflexivity.
Qed.

Section Marks.
Variable minSavingsRate : number.

Lemma reduceFrom_thrown (xs rest : list FeeDiff.t) (i : nat) :
  Js.reduceFrom (minDiffStep minSavingsRate) xs i rest None = None.
Proof.
  revert i. induction rest as [|fee rest IH]; intro i; [reflexivity|].
  simpl. apply IH.
Qed.

Lemma minDiffStep_returns (pre rest : list FeeDiff.t) (fee : FeeDiff.t)
    (c : number) (acc : list Recommendation.t) :
  (pre = [] -> (FeeDiff.diff fee === zero)%num = true) ->
  exists v,
    minDiffStep minSavingsRate (Some (c, acc)) fee (length pre)
      (pre ++ fee :: rest)
    = Some ((c + FeeDiff.diff fee)%num,
            acc ++ [withCumDiff fee (c + FeeDiff.diff fee)%num v]).
Proof.
  intro Hfirst. unfold minDiffStep.
  destruct (FeeDiff.diff fee === zero)%num eqn:Ez.
  - now exists true.
  - destruct pre as [|p0 pre']; [specialize (Hfirst eq_refl); discriminate|].
    cbn [length].
    destruct (nth_error ((p0 :: pre') ++ fee :: rest) (length pre'))
      as [prev|] eqn:En.
    + destruct (FeeDiff.diff fee / FeeDiff.feeRate prev >=? minSavingsRate)%num;
        [now exists true | now exists false].
    + apply nth_error_None in En. rewrite length_app in En.
      cbn [length] in En. lia.
Qed.

(** What the [reduce] of [minDiff$] builds when it does not throw: one
    entry for each entry of the fee curve, with its running sum. *)
Lemma reduceFrom_returns (xs : list FeeDiff.t) :
  forall rest pre c acc,
    xs = pre ++ rest ->
    (pre = [] ->
     match rest with
     | [] => True
     | e :: _ => (FeeDiff.diff e === zero)%num = true
     end) ->
    exists c' new,
      Js.reduceFrom (minDiffStep minSavingsRate) xs (length pre) rest
        (Some (c, acc))
      = Some (c', acc ++ new)
      /\ map Recommendation.diff new = map FeeDiff.diff rest
      /\ map Recommendation.targetBlock new = map FeeDiff.targetBlock rest
      /\ map Recommendation.feeRate new = map FeeDiff.feeRate rest
      /\ map Recommendation.cumDiff new = prefixSums c (map FeeDiff.diff rest).
Proof.
  intro rest. induction rest as [|fee rest IH]; intros pre c acc Hxs Hfirst.
  - exists c, []. simpl. rewrite app_nil_r. repeat split; reflexivity.
  - subst xs. cbn [Js.reduceFrom].
    destruct (minDiffStep_returns pre rest fee c acc Hfirst) as [v Hstep].
    rewrite Hstep.
    destruct (IH (pre ++ [fee]) (c + FeeDiff.diff fee)%num
                 (acc ++ [withCumDiff fee (c + FeeDiff.diff fee)%num v]))
      as [c' [new [Hred [Hd [Ht [Hf Hc]]]]]].
    + now rewrite <- app_assoc.
    + intro Hnil. now apply app_eq_nil in Hnil.
    + rewrite length_app in Hred. simpl in Hred.
      rewrite Nat.add_1_r in Hred.
      exists c', (withCumDiff fee (c + FeeDiff.diff fee)%num v :: new).
      split; [rewrite Hred; now rewrite <- app_assoc|].
      simpl. rewrite Hd, Ht, Hf, Hc. repeat split; reflexivity.
Qed.

(** X24.  The function that [minDiff$] maps throws exactly on an array
    whose first entry has a slope that is not 0: it then reads [feeRate] of
    [xs[-1]].  An array of [feeDiff$] begins with the slope 0, so on
    [feeDiff$] it never throws. *)
Theorem rank_throws_iff (x : list FeeDiff.t) :
  (rank minSavingsRate x = None
   <-> exists e l, x = e :: l /\ (FeeDiff.diff e === zero)%num = false)
  /\ forall fees, minDiff minSavingsRate fees <> None.
Proof.
  assert (Hok : forall y,
             match y with
             | [] => True
             | e :: _ => (FeeDiff.diff e === zero)%num = true
             end ->
             rank minSavingsRate y <> None).
  { intros y Hy.
    destruct (reduceFrom_returns y y [] zero [] eq_refl (fun _ => Hy))
      as [c' [new [Hred _]]].
    unfold rank, mark, Js.reduce. simpl in Hred. rewrite Hred. discriminate. }
  split.
  - split.
    + intro Hnone. destruct x as [|e l].
      * exfalso. now apply (Hok [] I).
      * exists e, l. split; [reflexivity|].
        destruct (FeeDiff.diff e === zero)%num eqn:E; [|reflexivity].
        exfalso. now apply (Hok (e :: l) E).
    + intros [e [l [-> He]]]. unfold rank, mark, Js.reduce.
      cbn [Js.reduceFrom]. unfold minDiffStep at 2. rewrite He.
      now rewrite reduceFrom_thrown.
  - intro fees. apply Hok.
    pose proof (Recommend.feeDiff_shape (fun _ => True) fees) as [_ Hhd].
    + apply Forall_forall. intros; exact I.
    + destruct (feeDiff fees) as [|e l]; [exact I|]. now rewrite Hhd.
Qed.

(** X25.  For every fee curve, [minDiff$] marks each entry that [feeDiff$]
    keeps, in order, with the running sum of the slopes as [cumDiff]; what
    it emits is made of the entries marked valid, each once, and of no
    other. *)
Theorem minDiff_marks_and_filters (fees : list Fee.t) :
  exists marked out,
    mark minSavingsRate (feeDiff fees) = Some marked
    /\ minDiff minSavingsRate fees = Some out
    /\ map Recommendation.diff marked = map FeeDiff.diff (feeDiff fees)
    /\ map Recommendation.targetBlock marked
       = map FeeDiff.targetBlock (feeDiff fees)
    /\ map Recommendation.feeRate marked = map FeeDiff.feeRate (feeDiff fees)
    /\ map Recommendation.cumDiff marked
       = prefixSums zero (map FeeDiff.diff (feeDiff fees))
    /\ Permutation out (List.filter Recommendation.valid marked)
    /\ Forall (fun e => Recommendation.valid e = true) out.
Proof.
  pose proof (Recommend.feeDiff_shape (fun _ => True) fees) as [_ Hhd];
    [apply Forall_forall; intros; exact I|].
  assert (Hy : match feeDiff fees with
               | [] => True
               | e :: _ => (FeeDiff.diff e === zero)%num = true
               end)
    by (destruct (feeDiff fees) as [|e l]; [exact I | now rewrite Hhd]).
  destruct (reduceFrom_returns (feeDiff fees) (feeDiff fees) [] zero []
              eq_refl (fun _ => Hy))
    as [c' [new [Hred [Hd [Ht [Hf Hc]]]]]].
  simpl in Hred.
  assert (Hmark : mark minSavingsRate (feeDiff fees) = Some new)
    by (unfold mark, Js.reduce; now rewrite Hred).
  exists new, (Js.sort byCost (List.filter Recommendation.valid new)).
  split; [exact Hmark|]. split; [unfold minDiff, rank; now rewrite Hmark|].
  repeat (split; [assumption|]). split.
  - apply SortFacts.sort_perm.
  - apply Forall_forall. intros e He. apply SortFacts.sort_In in He.
    now apply filter_In in He.
Qed.
End Marks.

End RankFacts.
